(** * A shallow embedding of the [crush] crate (src/lib.rs)

    The cluster map is a tree of [Node]s; the children of a node are a
    [BTreeMap<String, Node>], modelled as an association list sorted by key
    (byte order, which is [String.compare]).  Rust panics (a missing map key,
    [Option::unwrap] on [None], division by zero, integer overflow with
    overflow checks) are the [Panic] outcome; the unbounded [loop] of
    [Crush::select] is run with a step budget, [OutOfFuel] meaning that the
    budget ran out before the loop left. *)

From Stdlib Require Import ZArith List String Ascii Bool Lia.
From Stdlib Require Import OrderedTypeEx.
Import ListNotations.
Open Scope string_scope.
Open Scope Z_scope.

(** ** Outcomes *)

Inductive res (A : Type) : Type :=
| Ret (a : A)
| Panic
| OutOfFuel.
Arguments Ret {A} a.
Arguments Panic {A}.
Arguments OutOfFuel {A}.

Definition bind {A B} (m : res A) (k : A -> res B) : res B :=
  match m with
  | Ret a => k a
  | Panic => Panic
  | OutOfFuel => OutOfFuel
  end.

Notation "x <- m ;; k" := (bind m (fun x => k))
  (at level 61, m at next level, right associativity).

(** ** Machine integers *)

Definition u64_max : Z := 2 ^ 64.
Definition u32_max : Z := 2 ^ 32.

(** [x as i64] for a [u64] [x]: reinterpretation of the bits. *)
Definition u64_as_i64 (x : Z) : Z := if x <? 2 ^ 63 then x else x - 2 ^ 64.

(** [x as u64] for an [i64] [x]. *)
Definition i64_as_u64 (x : Z) : Z := x mod 2 ^ 64.

(** [a + b] on [i64] with overflow checks. *)
Definition i64_add (a b : Z) : res Z :=
  let s := a + b in
  if (- 2 ^ 63 <=? s) && (s <? 2 ^ 63) then Ret s else Panic.

(** [a + b] on [u32] with overflow checks. *)
Definition u32_add (a b : Z) : res Z :=
  let s := a + b in
  if s <? 2 ^ 32 then Ret s else Panic.

(** ** Paths

    [str::split_once('/')] and the [unwrap_or((path, ""))] around it. *)

Fixpoint split_once (s : string) : option (string * string) :=
  match s with
  | EmptyString => None
  | String c rest =>
      if Ascii.eqb c "/"%char then Some (EmptyString, rest)
      else match split_once rest with
           | Some (a, b) => Some (String c a, b)
           | None => None
           end
  end.

Definition split_name (path : string) : string * string :=
  match split_once path with
  | Some p => p
  | None => (path, EmptyString)
  end.

(** The names a [Node] method visits when it recurses on [path]: it stops on
    the empty path, otherwise it takes [name] and recurses on [suffix]. The
    budget [length path] is always enough (see [path_names_unfold]). *)
Fixpoint path_names_fuel (fuel : nat) (path : string) : list string :=
  match fuel with
  | O => []
  | S f =>
      match path with
      | EmptyString => []
      | _ => let (name, suffix) := split_name path in
             name :: path_names_fuel f suffix
      end
  end.

Definition path_names (path : string) : list string :=
  path_names_fuel (String.length path) path.

(** ** The cluster map *)

Set Warnings "-register-all".

(** [struct Node { weight: u64, out: bool, children: BTreeMap<String, Node> }] *)
Inductive Node : Type :=
| mkNode (weight : Z) (out : bool) (children : list (string * Node)).

Definition weight (n : Node) : Z := let (w, _, _) := n in w.
Definition out (n : Node) : bool := let (_, o, _) := n in o.
Definition children (n : Node) : list (string * Node) := let (_, _, c) := n in c.

(** [Node::default()] *)
Definition node_default : Node := mkNode 0 false [].

(** [struct Crush { root: Node }] *)
Record Crush : Type := mkCrush { root : Node }.

Definition crush_default : Crush := mkCrush node_default.

(** *** The [BTreeMap<String, Node>] operations used *)

Fixpoint map_get (k : string) (m : list (string * Node)) : option Node :=
  match m with
  | [] => None
  | (k', v) :: m' => if String.eqb k k' then Some v else map_get k m'
  end.

(** Insert or replace, keeping the keys sorted. *)
Fixpoint map_insert (k : string) (v : Node) (m : list (string * Node))
  : list (string * Node) :=
  match m with
  | [] => [(k, v)]
  | (k', v') :: m' =>
      match String.compare k k' with
      | Lt => (k, v) :: m
      | Eq => (k, v) :: m'
      | Gt => (k', v') :: map_insert k v m'
      end
  end.

(** [map[name]]: [Index] panics on a missing key. *)
Definition map_index (m : list (string * Node)) (k : string) : res Node :=
  match map_get k m with
  | Some v => Ret v
  | None => Panic
  end.

(** *** [Node::add_weight] *)

(** [self.weight = (self.weight as i64 + weight) as u64;] then recursion into
    [self.children.entry(name.into()).or_default()]. *)
Fixpoint node_add_weight (self : Node) (names : list string) (delta : Z)
  : res Node :=
  let (w, o, ch) := self in
  s <- i64_add (u64_as_i64 w) delta ;;
  let w' := i64_as_u64 s in
  match names with
  | [] => Ret (mkNode w' o ch)
  | name :: suffix =>
      let child := match map_get name ch with
                   | Some c => c
                   | None => node_default
                   end in
      child' <- node_add_weight child suffix delta ;;
      Ret (mkNode w' o (map_insert name child' ch))
  end.

(** *** [Node::get] and [Node::get_mut] *)

Fixpoint node_get (self : Node) (names : list string) : res Node :=
  match names with
  | [] => Ret self
  | name :: suffix =>
      c <- map_index (children self) name ;;
      node_get c suffix
  end.

(** [get_mut] rebuilds the node with [f] applied at the path; the
    [.unwrap()] on [get_mut(name)] panics on a missing key. *)
Fixpoint node_update (self : Node) (names : list string) (f : Node -> Node)
  : res Node :=
  match names with
  | [] => Ret (f self)
  | name :: suffix =>
      let (w, o, ch) := self in
      match map_get name ch with
      | None => Panic
      | Some c => c' <- node_update c suffix f ;;
                  Ret (mkNode w o (map_insert name c' ch))
      end
  end.

(** *** The [Crush] methods on the tree *)

Definition add_weight (c : Crush) (path : string) (delta : Z) : res Crush :=
  r <- node_add_weight (root c) (path_names path) delta ;;
  Ret (mkCrush r).

Definition total_weight (c : Crush) : Z := weight (root c).

Definition get_weight (c : Crush) (path : string) : res Z :=
  n <- node_get (root c) (path_names path) ;;
  Ret (weight n).

Definition get_inout (c : Crush) (path : string) : res bool :=
  n <- node_get (root c) (path_names path) ;;
  Ret (out n).

Definition set_inout (c : Crush) (path : string) (o : bool) : res Crush :=
  r <- node_update (root c) (path_names path)
         (fun n => mkNode (weight n) o (children n)) ;;
  Ret (mkCrush r).

(** ** Selection

    [AHasher::default()] fed with [name], [key] and [index] is the external
    hash ([ahash]); [LN_TABLE] is the lazily built [Vec<u64>] of 65536
    entries, computed in floating point, read here as a function of the
    index. *)

Section Select.

Variable ahash : string -> Z -> Z -> Z.
Variable LN_TABLE : Z -> Z.

(** The closure of [choose]: [LN_TABLE[(hasher.finish() & 65535)] / child.weight];
    [u64] division panics on a zero divisor. *)
Definition draw (key index : Z) (name : string) (child : Node) : res Z :=
  let h := Z.land (ahash name key index) 65535 in
  if weight child =? 0 then Panic else Ret (LN_TABLE h / weight child).

Fixpoint draws (key index : Z) (l : list (string * Node))
  : res (list (string * Z)) :=
  match l with
  | [] => Ret []
  | (name, child) :: l' =>
      w <- draw key index name child ;;
      rest <- draws key index l' ;;
      Ret ((name, w) :: rest)
  end.

(** [Iterator::min_by_key]: the first element with the least key. *)
Fixpoint min_by_key_from (best : string * Z) (l : list (string * Z)) : string * Z :=
  match l with
  | [] => best
  | x :: l' => if snd x <? snd best then min_by_key_from x l' else min_by_key_from best l'
  end.

Definition min_by_key (l : list (string * Z)) : option (string * Z) :=
  match l with
  | [] => None
  | x :: l' => Some (min_by_key_from x l')
  end.

(** [Node::choose]; the final [.unwrap()] panics when there is no child. *)
Definition choose (self : Node) (key index : Z) : res string :=
  ws <- draws key index (children self) ;;
  match min_by_key ws with
  | Some (name, _) => Ret name
  | None => Panic
  end.

(** The variables of one iteration of [loop] in [Crush::select]. *)
Record lstate : Type := mkL {
  cur : Node;            (* node *)
  fullname : string;
  failure_count : Z;     (* u32, shared by the replicas *)
  local_failure : Z
}.

(** One pass through the body of [loop]: [inl] continues the loop, [inr]
    is the [break] with [fullname] and [failure_count]. *)
Definition loop_body (self_root : Node) (targets : list string) (pgid r : Z)
  (st : lstate) : res (lstate + (string * Z)) :=
  idx <- u32_add r (failure_count st) ;;
  name <- choose (cur st) pgid idx ;;
  let fn1 := if String.eqb (fullname st) "" then fullname st
             else fullname st ++ "/" in
  let fn2 := fn1 ++ name in
  child <- map_index (children (cur st)) name ;;
  if negb (match children child with [] => true | _ => false end) then
    Ret (inl (mkL child fn2 (failure_count st) (local_failure st)))
  else if negb (out child) && negb (existsb (String.eqb fn2) targets) then
    Ret (inr (fn2, failure_count st))
  else
    fc <- u32_add (failure_count st) 1 ;;
    let lf := local_failure st + 1 in
    if 3 <? lf then Ret (inl (mkL self_root "" fc 0))
    else Ret (inl (mkL (cur st) fn2 fc lf)).

(** [loop] with a budget of [fuel] iterations. *)
Fixpoint run_loop (fuel : nat) (self_root : Node) (targets : list string)
  (pgid r : Z) (st : lstate) : res (string * Z) :=
  match fuel with
  | O => OutOfFuel
  | S f =>
      match loop_body self_root targets pgid r st with
      | Ret (inl st') => run_loop f self_root targets pgid r st'
      | Ret (inr x) => Ret x
      | Panic => Panic
      | OutOfFuel => OutOfFuel
      end
  end.

(** [for r in 0..num], each replica's [loop] with a budget of [fuel]. *)
Fixpoint select_reps (fuel : nat) (self_root : Node) (pgid : Z) (rs : list Z)
  (targets : list string) (fc : Z) : res (list string) :=
  match rs with
  | [] => Ret targets
  | r :: rs' =>
      x <- run_loop fuel self_root targets pgid r (mkL self_root "" fc 0) ;;
      select_reps fuel self_root pgid rs' (targets ++ [fst x]) (snd x)
  end.

Definition replica_indices (num : Z) : list Z :=
  map Z.of_nat (seq 0 (Z.to_nat num)).

Definition select (fuel : nat) (c : Crush) (pgid num : Z) : res (list string) :=
  select_reps fuel (root c) pgid (replica_indices num) [] 0.

(** [self.select(pgid, 1).into_iter().next().unwrap()] *)
Definition locate (fuel : nat) (c : Crush) (pgid : Z) : res string :=
  l <- select fuel c pgid 1 ;;
  match l with
  | x :: _ => Ret x
  | [] => Panic
  end.

End Select.

(** ** Auxiliary definitions for the properties *)

(** The sum of the children's weights. *)
Definition sum_children (n : Node) : Z :=
  fold_right (fun p acc => weight (snd p) + acc) 0 (children n).

(** Keys strictly increasing: the shape of a [BTreeMap]. *)
Fixpoint keys_sorted (l : list (string * Node)) : Prop :=
  match l with
  | [] => True
  | (k, _) :: l' => Forall (fun p => String_as_OT.lt k (fst p)) l' /\ keys_sorted l'
  end.

Fixpoint tree_wf (n : Node) : Prop :=
  let (_, _, ch) := n in
  keys_sorted ch /\
  (fix all (l : list (string * Node)) : Prop :=
     match l with
     | [] => True
     | (_, c) :: l' => tree_wf c /\ all l'
     end) ch.

(** A sequence of [Crush::add_weight] calls. *)
Fixpoint apply_calls (c : Crush) (calls : list (string * Z)) : res Crush :=
  match calls with
  | [] => Ret c
  | (p, d) :: calls' => c' <- add_weight c p d ;; apply_calls c' calls'
  end.

(** The total delta of the calls whose path names exactly the node [ps]. *)
Fixpoint direct_delta (calls : list (string * Z)) (ps : list string) : Z :=
  match calls with
  | [] => 0
  | (p, d) :: calls' =>
      (if list_eq_dec string_dec ps (path_names p) then d else 0)
      + direct_delta calls' ps
  end.

(** The weight the node at [ps] has, 0 when there is none ([or_default]). *)
Definition old_weight (n : Node) (ps : list string) : Z :=
  match node_get n ps with
  | Ret m => weight m
  | _ => 0
  end.

(** A subtree in which every child has a non-zero weight and every leaf is
    marked out: [select] can descend in it but finds no target. *)
Fixpoint all_out (n : Node) : bool :=
  let (_, _, ch) := n in
  (fix all (l : list (string * Node)) : bool :=
     match l with
     | [] => true
     | (_, c) :: l' =>
         negb (weight c =? 0)
         && match children c with [] => out c | _ => all_out c end
         && all l'
     end) ch.

(** The height of a tree: 0 for a node without children. *)
Fixpoint height (n : Node) : nat :=
  let (_, _, ch) := n in
  (fix hs (l : list (string * Node)) : nat :=
     match l with
     | [] => O
     | (_, c) :: l' => Nat.max (S (height c)) (hs l')
     end) ch.

Definition has_children (n : Node) : bool :=
  match children n with [] => false | _ => true end.

(** The retry policy of [select] in the words of the specification: a draw
    at the current node with [attempt_index = r + failure_count]; descent
    into an inner node; acceptance of an in-service leaf whose path is new;
    on rejection both counters go up and the same node is drawn again (the
    specification does not say what becomes of the path then, so any path
    is allowed), or, once the local counter exceeds 3, it is reset and
    descent restarts from the root with an empty path. *)
Section RetryPolicy.

Variable ahash : string -> Z -> Z -> Z.
Variable LN_TABLE : Z -> Z.
Variables (self_root : Node) (targets : list string) (pgid r : Z).

Definition extend_path (fn name : string) : string :=
  (if String.eqb fn "" then fn else fn ++ "/") ++ name.

Inductive retry_step (st : lstate) : lstate + (string * Z) -> Prop :=
| rs_descend name child :
    choose ahash LN_TABLE (cur st) pgid (r + failure_count st) = Ret name ->
    map_get name (children (cur st)) = Some child ->
    has_children child = true ->
    retry_step st (inl (mkL child (extend_path (fullname st) name)
                           (failure_count st) (local_failure st)))
| rs_accept name child :
    choose ahash LN_TABLE (cur st) pgid (r + failure_count st) = Ret name ->
    map_get name (children (cur st)) = Some child ->
    has_children child = false ->
    out child = false ->
    ~ In (extend_path (fullname st) name) targets ->
    retry_step st (inr (extend_path (fullname st) name, failure_count st))
| rs_retry_same name child fn' :
    choose ahash LN_TABLE (cur st) pgid (r + failure_count st) = Ret name ->
    map_get name (children (cur st)) = Some child ->
    has_children child = false ->
    (out child = true \/ In (extend_path (fullname st) name) targets) ->
    local_failure st + 1 <= 3 ->
    retry_step st (inl (mkL (cur st) fn' (failure_count st + 1) (local_failure st + 1)))
| rs_restart name child :
    choose ahash LN_TABLE (cur st) pgid (r + failure_count st) = Ret name ->
    map_get name (children (cur st)) = Some child ->
    has_children child = false ->
    (out child = true \/ In (extend_path (fullname st) name) targets) ->
    3 < local_failure st + 1 ->
    retry_step st (inl (mkL self_root "" (failure_count st + 1) 0)).

End RetryPolicy.

(** The whole of one [select] call in the words of the specification: each
    replica [r] starts at the root with an empty path and a local counter 0,
    takes [retry_step]s until an acceptance, and hands its [failure_count]
    on to the next replica; the first starts with 0. *)
Section PolicyRun.

Variable ahash : string -> Z -> Z -> Z.
Variable LN_TABLE : Z -> Z.
Variables (self_root : Node) (pgid : Z).

Inductive policy_loop (targets : list string) (r : Z) : lstate -> string * Z -> Prop :=
| pl_accept st x :
    retry_step ahash LN_TABLE self_root targets pgid r st (inr x) ->
    policy_loop targets r st x
| pl_continue st st' x :
    retry_step ahash LN_TABLE self_root targets pgid r st (inl st') ->
    policy_loop targets r st' x ->
    policy_loop targets r st x.

Inductive policy_select : list Z -> list string -> Z -> list string -> Prop :=
| ps_done targets fc : policy_select [] targets fc targets
| ps_replica r rs targets fc x fc' result :
    policy_loop targets r (mkL self_root "" fc 0) (x, fc') ->
    policy_select rs (targets ++ [x]) fc' result ->
    policy_select (r :: rs) targets fc result.

End PolicyRun.

(** [is_prefix ps qs]: the path [ps] names [qs] or one of its ancestors. *)
Fixpoint is_prefix (l1 l2 : list string) : bool :=
  match l1, l2 with
  | [], _ => true
  | a :: l1', b :: l2' => String.eqb a b && is_prefix l1' l2'
  | _ :: _, [] => false
  end.

(** The sum of the deltas of the calls whose path runs through [ps]. *)
Fixpoint subtree_delta (calls : list (string * Z)) (ps : list string) : Z :=
  match calls with
  | [] => 0
  | (p, d) :: calls' =>
      (if is_prefix ps (path_names p) then d else 0) + subtree_delta calls' ps
  end.

(** The components joined with ["/"]. *)
Fixpoint join_path (comps : list string) : string :=
  match comps with
  | [] => ""
  | [a] => a
  | a :: rest => a ++ "/" ++ join_path rest
  end.

(** The weights of a tree are the sums [D] of the deltas, and the paths
    not in the tree have received no delta. *)
Definition delta_inv (n : Node) (D : list string -> Z) : Prop :=
  (forall ps m, node_get n ps = Ret m -> weight m = D ps mod 2 ^ 64) /\
  (forall ps, node_get n ps = Panic -> D ps = 0).

(** ** Concrete cluster maps *)

(** [add_weight("a", 1); add_weight("a/b", 1)]: weight added at a node that
    later gets a child. *)
Definition calls_inner : list (string * Z) := [("a", 1); ("a/b", 1)].

(** [add_weight("a", 1); add_weight("a", -1); add_weight("b", 1)]. *)
Definition calls_zero : list (string * Z) := [("a", 1); ("a", -1); ("b", 1)].

(** One device [a], then [set_inout("a", true)]. *)
Definition map_all_out : res Crush :=
  c <- apply_calls crush_default [("a", 1)] ;; set_inout c "a" true.

(** [add_weight("/x", 2^40); add_weight("x", 1); set_inout("x", true)]: the
    device [/x] under a child named [""] and the device [x] beside it. *)
Definition map_empty_name : res Crush :=
  c <- apply_calls crush_default [("/x", 2 ^ 40); ("x", 1)] ;;
  set_inout c "x" true.

(** [add_weight("h/a", 2^40); add_weight("h/b", 1)]. *)
Definition map_two_devices : res Crush :=
  apply_calls crush_default [("h/a", 2 ^ 40); ("h/b", 1)].

(** The trees these calls build. *)
Definition tree_inner : Node :=
  mkNode 2 false [("a", mkNode 2 false [("b", mkNode 1 false [])])].

Definition tree_all_out : Node := mkNode 1 false [("a", mkNode 1 true [])].

Definition tree_empty_name : Node :=
  mkNode (2 ^ 40 + 1) false
    [("", mkNode (2 ^ 40) false [("x", mkNode (2 ^ 40) false [])]);
     ("x", mkNode 1 true [])].

Definition host_two_devices : Node :=
  mkNode (2 ^ 40 + 1) false [("a", mkNode (2 ^ 40) false []); ("b", mkNode 1 false [])].

Definition tree_two_devices : Node := mkNode (2 ^ 40 + 1) false [("h", host_two_devices)].

(** A table with the bounds of [LN_TABLE] and a hash, to run the witnesses. *)
Definition table_example (i : Z) : Z :=
  if i =? 0 then 2 ^ 64 - 1 else 2 ^ 28 + (65536 - i).

Definition hash_example (name : string) (key index : Z) : Z :=
  Z.of_nat (String.length name) + 7 * key + 13 * index.

(** The bounds of [LN_TABLE]: [L[0]] saturates to [u64::MAX], and
    [L[65535] = round(-ln(65535/65536) * 2^44)], the least entry, exceeds [2^28]. *)
Definition ln_table_bounds (LN_TABLE : Z -> Z) : Prop :=
  forall i, 0 <= i < 65536 -> 2 ^ 28 <= LN_TABLE i < 2 ^ 64.

(** * Properties *)

(** ** Paths *)

Lemma split_once_length (s a b : string) :
  split_once s = Some (a, b) -> (String.length b < String.length s)%nat.
Proof.
  revert a b; induction s as [|c s IH]; intros a b H; simpl in H.
  - discriminate.
  - destruct (Ascii.eqb c "/"%char).
    + inversion H; subst; simpl; lia.
    + destruct (split_once s) as [[a' b']|] eqn:E; [|discriminate].
      inversion H; subst. specialize (IH _ _ eq_refl). simpl; lia.
Qed.

Lemma split_name_length (s : string) :
  s <> EmptyString ->
  (String.length (snd (split_name s)) < String.length s)%nat.
Proof.
  intros Hs; unfold split_name.
  destruct (split_once s) as [[a b]|] eqn:E.
  - apply (split_once_length _ _ _ E).
  - simpl. destruct s; [congruence | simpl; lia].
Qed.

Lemma path_names_fuel_enough (f1 f2 : nat) (s : string) :
  (String.length s <= f1)%nat -> (String.length s <= f2)%nat ->
  path_names_fuel f1 s = path_names_fuel f2 s.
Proof.
  revert f2 s; induction f1 as [|f1 IH]; intros f2 s H1 H2.
  - destruct s; [|simpl in H1; lia]. destruct f2; reflexivity.
  - destruct f2 as [|f2].
    + destruct s; [reflexivity | simpl in H2; lia].
    + simpl. destruct s as [|c s']; [reflexivity|].
      assert (Hl := split_name_length (String c s') ltac:(discriminate)).
      destruct (split_name (String c s')) as [name suffix]; simpl in Hl.
      f_equal. apply IH; simpl in *; lia.
Qed.

(** [path_names] follows the recursion of [Node::get] and [Node::add_weight]:
    stop on the empty path, else [split_once('/').unwrap_or((path, ""))]. *)
Lemma path_names_unfold (s : string) :
  s <> EmptyString ->
  path_names s = fst (split_name s) :: path_names (snd (split_name s)).
Proof.
  intros Hs. unfold path_names.
  assert (Hl := split_name_length s Hs).
  destruct s as [|c s']; [congruence|].
  simpl String.length at 1. simpl path_names_fuel.
  destruct (split_name (String c s')) as [name suffix]; simpl in *.
  f_equal. apply path_names_fuel_enough; simpl in *; lia.
Qed.

Lemma path_names_empty : path_names EmptyString = [].
Proof. reflexivity. Qed.

(** ** Replicas are distinct strings *)

Section Distinct.

Variable ahash : string -> Z -> Z -> Z.
Variable LN_TABLE : Z -> Z.

Lemma run_loop_fresh (fuel : nat) (rt : Node) (targets : list string)
  (pgid r : Z) (st : lstate) (x : string) (fc : Z) :
  run_loop ahash LN_TABLE fuel rt targets pgid r st = Ret (x, fc) ->
  ~ In x targets.
Proof.
  revert st; induction fuel as [|fuel IH]; intros st H; simpl in H.
  - discriminate.
  - destruct (loop_body ahash LN_TABLE rt targets pgid r st) as [[st'|[y fc']]| |]
      eqn:E; try discriminate.
    + exact (IH st' H).
    + inversion H; subst y fc'. clear H.
      unfold loop_body in E.
      destruct (u32_add r (failure_count st)); simpl in E; try discriminate.
      destruct (choose ahash LN_TABLE (cur st) pgid a) as [name| |]; simpl in E;
        try discriminate.
      destruct (map_index (children (cur st)) name) as [child| |]; simpl in E;
        try discriminate.
      destruct (negb _); [discriminate|].
      destruct (negb (out child) && negb (existsb _ targets)) eqn:Acc.
      * inversion E; subst x. apply andb_prop in Acc as [_ Acc].
        apply negb_true_iff in Acc. intros Hin.
        rewrite (proj2 (existsb_exists _ _)
                   (ex_intro _ _ (conj Hin (String.eqb_refl _)))) in Acc.
        discriminate.
      * destruct (u32_add (failure_count st) 1); simpl in E; try discriminate.
        destruct (3 <? _); discriminate.
Qed.

Lemma select_reps_nodup (fuel : nat) (rt : Node) (pgid : Z) (rs : list Z)
  (targets : list string) (fc : Z) (l : list string) :
  NoDup targets ->
  select_reps ahash LN_TABLE fuel rt pgid rs targets fc = Ret l ->
  NoDup l.
Proof.
  revert targets fc; induction rs as [|r rs IH]; intros targets fc Hnd H; simpl in H.
  - inversion H; subst; assumption.
  - destruct (run_loop ahash LN_TABLE fuel rt targets pgid r (mkL rt "" fc 0))
      as [[x fc']| |] eqn:E; simpl in H; try discriminate.
    refine (IH _ _ _ H). apply run_loop_fresh in E.
    apply NoDup_app; [exact Hnd | constructor; [intros []|constructor] |].
    intros y Hy [<-|[]]. contradiction.
Qed.

End Distinct.

(** ** The weighted draw *)

Section Draw.

Variable ahash : string -> Z -> Z -> Z.
Variable LN_TABLE : Z -> Z.

Lemma draws_zero_weight (key index : Z) (l : list (string * Node))
  (name : string) (c : Node) :
  In (name, c) l -> weight c = 0 -> draws ahash LN_TABLE key index l = Panic.
Proof.
  induction l as [|[n0 c0] l IH]; intros Hin Hw; [destruct Hin|].
  simpl. unfold draw at 1.
  destruct Hin as [Heq|Hin].
  - inversion Heq; subst. rewrite Hw. reflexivity.
  - destruct (weight c0 =? 0); [reflexivity|]. simpl.
    rewrite (IH Hin Hw). reflexivity.
Qed.

Lemma choose_zero_weight (n : Node) (key index : Z) (name : string) (c : Node) :
  In (name, c) (children n) -> weight c = 0 ->
  choose ahash LN_TABLE n key index = Panic.
Proof.
  intros Hin Hw. unfold choose. rewrite (draws_zero_weight _ _ _ _ _ Hin Hw).
  reflexivity.
Qed.

Lemma choose_no_children (n : Node) (key index : Z) :
  children n = [] -> choose ahash LN_TABLE n key index = Panic.
Proof. intros H. unfold choose. rewrite H. reflexivity. Qed.

Lemma replica_indices_pos (num : Z) :
  1 <= num -> exists rs, replica_indices num = 0 :: rs.
Proof.
  intros H. unfold replica_indices.
  destruct (Z.to_nat num) as [|k] eqn:E; [lia|].
  simpl. eexists; reflexivity.
Qed.

Lemma select_childless_root (fuel : nat) (c : Crush) (pgid num : Z) :
  children (root c) = [] -> 1 <= num ->
  select ahash LN_TABLE (S fuel) c pgid num = Panic.
Proof.
  intros Hc Hn. unfold select.
  destruct (replica_indices_pos num Hn) as [rs ->].
  simpl select_reps. simpl run_loop. unfold loop_body. simpl.
  rewrite (choose_no_children _ _ _ Hc). reflexivity.
Qed.

End Draw.

(** ** Path lookups *)

Lemma node_get_missing (names : list string) (n m : Node) (k : nat) :
  (k < List.length names)%nat ->
  node_get n (firstn k names) = Ret m ->
  map_get (List.nth k names "") (children m) = None ->
  node_get n names = Panic.
Proof.
  revert n k; induction names as [|a names IH]; intros n k Hk Hg Hm;
    simpl in Hk; [lia|].
  destruct k as [|k].
  - simpl in Hg. inversion Hg; subst. simpl in *. unfold map_index. rewrite Hm.
    reflexivity.
  - simpl in Hg |- *. unfold map_index in *.
    destruct (map_get a (children n)) as [c|]; simpl in *; [|discriminate].
    apply (IH c k); [lia | exact Hg | exact Hm].
Qed.

Lemma node_update_panic (names : list string) (n : Node) (f : Node -> Node) :
  node_get n names = Panic -> node_update n names f = Panic.
Proof.
  revert n; induction names as [|a names IH]; intros [w o ch] H; simpl in H |- *.
  - discriminate.
  - unfold map_index in H; simpl in H.
    destruct (map_get a ch) as [c|]; simpl in H |- *; [|reflexivity].
    rewrite (IH c H). reflexivity.
Qed.

(** ** The sorted child maps *)

Lemma string_compare_refl (k : string) : String.compare k k = Eq.
Proof. apply (proj2 (String_as_OT.cmp_eq k k)). reflexivity. Qed.

Definition sum_list (l : list (string * Node)) : Z :=
  fold_right (fun p acc => weight (snd p) + acc) 0 l.

Lemma map_get_insert_same (k : string) (v : Node) (m : list (string * Node)) :
  map_get k (map_insert k v m) = Some v.
Proof.
  induction m as [|[k' v'] m IH]; simpl.
  - rewrite String.eqb_refl. reflexivity.
  - destruct (String.compare k k') eqn:E; simpl; rewrite ?String.eqb_refl; auto.
    assert (k' <> k) as Hne.
    { intros ->. rewrite string_compare_refl in E. discriminate. }
    rewrite <- String.eqb_neq in Hne. rewrite String.eqb_sym, Hne. exact IH.
Qed.

Lemma map_get_insert_other (k k2 : string) (v : Node) (m : list (string * Node)) :
  k2 <> k -> map_get k2 (map_insert k v m) = map_get k2 m.
Proof.
  intros Hne. assert (Hb := proj2 (String.eqb_neq _ _) Hne).
  induction m as [|[k' v'] m IH]; simpl.
  - rewrite Hb. reflexivity.
  - destruct (String.compare k k') eqn:E; simpl.
    + apply String.compare_eq_iff in E; subst k'. rewrite Hb. reflexivity.
    + rewrite Hb. reflexivity.
    + rewrite IH. reflexivity.
Qed.

Lemma map_get_in (k : string) (v : Node) (m : list (string * Node)) :
  map_get k m = Some v -> In (k, v) m.
Proof.
  induction m as [|[k' v'] m IH]; simpl; intros H; [discriminate|].
  destruct (String.eqb_spec k k'); [inversion H; subst; left; reflexivity|].
  right; auto.
Qed.

Lemma map_get_above (k : string) (m : list (string * Node)) :
  Forall (fun p => String_as_OT.lt k (fst p)) m -> map_get k m = None.
Proof.
  induction m as [|[k' v'] m IH]; simpl; intros H; [reflexivity|].
  inversion H as [|? ? Hk Hm]; subst; simpl in Hk.
  destruct (String.eqb_spec k k') as [->|]; [|auto].
  exfalso. apply (String_as_OT.lt_not_eq _ _ Hk). reflexivity.
Qed.

Lemma forall_lt_insert (a k : string) (v : Node) (m : list (string * Node)) :
  Forall (fun p => String_as_OT.lt a (fst p)) m -> String_as_OT.lt a k ->
  Forall (fun p => String_as_OT.lt a (fst p)) (map_insert k v m).
Proof.
  induction m as [|[k' v'] m IH]; simpl; intros H Hk; [constructor; auto|].
  inversion H; subst.
  destruct (String.compare k k'); constructor; simpl; auto.
Qed.

Lemma keys_sorted_insert (k : string) (v : Node) (m : list (string * Node)) :
  keys_sorted m -> keys_sorted (map_insert k v m).
Proof.
  induction m as [|[k' v'] m IH]; simpl; intros H.
  - split; [constructor | exact I].
  - destruct H as [Hf Hs]. destruct (String.compare k k') eqn:E; simpl.
    + apply String.compare_eq_iff in E; subst k'. split; assumption.
    + apply String_as_OT.cmp_lt in E. split; [|split; assumption].
      constructor; [exact E|].
      eapply Forall_impl; [|exact Hf]. intros p Hp. eapply String_as_OT.lt_trans; eauto.
    + split; [|apply IH, Hs]. apply forall_lt_insert; [exact Hf|].
      apply String_as_OT.cmp_lt. rewrite String.compare_antisym, E. reflexivity.
Qed.

Lemma sum_list_insert (k : string) (v : Node) (m : list (string * Node)) :
  keys_sorted m ->
  sum_list (map_insert k v m)
  = sum_list m - match map_get k m with Some o => weight o | None => 0 end + weight v.
Proof.
  induction m as [|[k' v'] m IH]; simpl; intros H; [lia|].
  destruct H as [Hf Hs].
  destruct (String.compare k k') eqn:E; simpl.
  - apply String.compare_eq_iff in E; subst k'. rewrite String.eqb_refl. lia.
  - apply String_as_OT.cmp_lt in E.
    assert (k <> k') as Hne.
    { intros ->. apply (String_as_OT.lt_not_eq _ _ E). reflexivity. }
    rewrite (proj2 (String.eqb_neq _ _) Hne).
    rewrite map_get_above; [lia|].
    eapply Forall_impl; [|exact Hf]. intros p Hp. eapply String_as_OT.lt_trans; eauto.
  - assert (k <> k') as Hne.
    { intros ->. rewrite string_compare_refl in E. discriminate. }
    rewrite (proj2 (String.eqb_neq _ _) Hne). rewrite IH by exact Hs. lia.
Qed.

Lemma tree_wf_mk (w : Z) (o : bool) (ch : list (string * Node)) :
  tree_wf (mkNode w o ch) <-> keys_sorted ch /\ Forall (fun p => tree_wf (snd p)) ch.
Proof.
  simpl. split; intros [Hs Ha]; split; try exact Hs.
  - induction ch as [|[k c] ch IH]; constructor; simpl in *; [tauto|].
    apply IH; [|tauto]. destruct ch as [|[]]; simpl in *; tauto.
  - induction ch as [|[k c] ch IH]; [exact I|]. inversion Ha; subst.
    split; [assumption|]. apply IH; [|assumption].
    destruct ch as [|[]]; simpl in *; tauto.
Qed.

Lemma forall_wf_insert (k : string) (v : Node) (m : list (string * Node)) :
  Forall (fun p => tree_wf (snd p)) m -> tree_wf v ->
  Forall (fun p => tree_wf (snd p)) (map_insert k v m).
Proof.
  induction m as [|[k' v'] m IH]; simpl; intros H Hv; [constructor; auto|].
  inversion H; subst.
  destruct (String.compare k k'); repeat constructor; auto.
Qed.

(** ** Arithmetic of [Node::add_weight] *)

Lemma u64_as_i64_mod (w d : Z) :
  (u64_as_i64 w + d) mod 2 ^ 64 = (w + d) mod 2 ^ 64.
Proof.
  unfold u64_as_i64. destruct (w <? 2 ^ 63); [reflexivity|].
  replace (w - 2 ^ 64 + d) with ((w + d) + (-1) * 2 ^ 64) by ring.
  apply Z_mod_plus_full.
Qed.

Lemma i64_add_ret (a b s : Z) : i64_add a b = Ret s -> s = a + b.
Proof.
  unfold i64_add. destruct (_ && _); intros H; inversion H; reflexivity.
Qed.

Lemma node_add_weight_top (n : Node) (names : list string) (d : Z) (n' : Node) :
  node_add_weight n names d = Ret n' -> weight n' = (weight n + d) mod 2 ^ 64.
Proof.
  destruct n as [w o ch]; destruct names as [|a rest]; cbn [node_add_weight weight];
  destruct (i64_add (u64_as_i64 w) d) as [s| |] eqn:Hs; cbn [bind]; try discriminate;
  apply i64_add_ret in Hs; subst s.
  - intros H; inversion H; subst; apply u64_as_i64_mod.
  - destruct (node_add_weight _ rest d); cbn [bind]; try discriminate.
    intros H; inversion H; subst; apply u64_as_i64_mod.
Qed.

(** ** The weight bookkeeping invariant *)

Definition weight_inv (n : Node) (D : list string -> Z) : Prop :=
  tree_wf n /\
  (forall ps m, node_get n ps = Ret m -> weight m = (sum_children m + D ps) mod 2 ^ 64) /\
  (forall ps, node_get n ps = Panic -> D ps mod 2 ^ 64 = 0).

Lemma weight_inv_ext (n : Node) (D1 D2 : list string -> Z) :
  (forall ps, D1 ps = D2 ps) -> weight_inv n D1 -> weight_inv n D2.
Proof.
  intros E [H1 [H2 H3]]; split; [exact H1|split].
  - intros ps m Hm. rewrite <- E. auto.
  - intros ps Hp. rewrite <- E. auto.
Qed.

Lemma weight_inv_default : weight_inv node_default (fun _ => 0).
Proof.
  split; [split; exact I|split].
  - intros [|p ps] m H; simpl in H; [inversion H; subst; reflexivity|discriminate].
  - intros ps _. reflexivity.
Qed.

Lemma mod_shift (x y z d : Z) :
  (x - y + (y + d) mod 2 ^ 64 + z) mod 2 ^ 64 = ((x + z) mod 2 ^ 64 + d) mod 2 ^ 64.
Proof.
  rewrite Zplus_mod_idemp_l.
  replace (x - y + (y + d) mod 2 ^ 64 + z) with ((y + d) mod 2 ^ 64 + (x - y + z))
    by ring.
  rewrite Zplus_mod_idemp_l. f_equal. ring.
Qed.

Lemma list_eq_dec_cons (a : string) (ps rest : list string) (d : Z) :
  (if list_eq_dec string_dec (a :: ps) (a :: rest) then d else 0)
  = (if list_eq_dec string_dec ps rest then d else 0).
Proof.
  destruct (list_eq_dec string_dec (a :: ps) (a :: rest)) as [E|E];
  destruct (list_eq_dec string_dec ps rest) as [E'|E']; try reflexivity.
  - inversion E; contradiction.
  - subst; contradiction.
Qed.

Lemma node_get_cons (n : Node) (a : string) (ps : list string) :
  node_get n (a :: ps)
  = match map_get a (children n) with Some c => node_get c ps | None => Panic end.
Proof.
  simpl. unfold map_index. destruct (map_get a (children n)); reflexivity.
Qed.

Lemma weight_inv_step (names : list string) :
  forall n D d n',
  weight_inv n D -> node_add_weight n names d = Ret n' ->
  weight_inv n' (fun ps => D ps + if list_eq_dec string_dec ps names then d else 0).
Proof.
  induction names as [|a rest IH]; intros [w o ch] D d n' [Hwf [Hw Hp]] H;
    cbn [node_add_weight] in H;
    destruct (i64_add (u64_as_i64 w) d) as [s| |] eqn:Hs; cbn [bind] in H;
    try discriminate; apply i64_add_ret in Hs; subst s.
  - (* the named node itself *)
    inversion H; subst n'; clear H.
    split; [exact Hwf|split].
    + intros [|b ps] m Hm.
      * cbn in Hm; inversion Hm; subst m; clear Hm.
        specialize (Hw [] (mkNode w o ch) eq_refl).
        change (weight (mkNode w o ch)) with w in Hw.
        change (sum_children (mkNode w o ch)) with (sum_list ch) in Hw.
        change ((u64_as_i64 w + d) mod 2 ^ 64
                = (sum_list ch + (D [] + if list_eq_dec string_dec [] [] then d else 0))
                  mod 2 ^ 64).
        destruct (list_eq_dec string_dec [] []) as [_|C]; [|congruence].
        rewrite u64_as_i64_mod, Hw, Zplus_mod_idemp_l. f_equal; ring.
      * assert (node_get (mkNode w o ch) (b :: ps) = Ret m) as Hm' by exact Hm.
        rewrite (Hw _ _ Hm').
        destruct (list_eq_dec string_dec (b :: ps) []) as [E|_]; [discriminate|].
        rewrite Z.add_0_r; reflexivity.
    + intros [|b ps] Hpn; [cbn in Hpn; discriminate|].
      assert (node_get (mkNode w o ch) (b :: ps) = Panic) as Hpn' by exact Hpn.
      destruct (list_eq_dec string_dec (b :: ps) []) as [E|_]; [discriminate|].
      rewrite Z.add_0_r; auto.
  - (* an ancestor: the child [a] is updated, or created by [or_default] *)
    remember (match map_get a ch with Some c => c | None => node_default end) as child.
    destruct (node_add_weight child rest d) as [child'| |] eqn:Hc; cbn [bind] in H;
      try discriminate.
    inversion H; subst n'; clear H.
    assert (Hchild : weight_inv child (fun ps => D (a :: ps))).
    { destruct (map_get a ch) as [c|] eqn:Ea; subst child.
      - split; [|split].
        + apply tree_wf_mk in Hwf as [_ Hall]. apply map_get_in in Ea.
          rewrite Forall_forall in Hall. exact (Hall _ Ea).
        + intros ps m Hm. apply (Hw (a :: ps)).
          rewrite node_get_cons; simpl children; rewrite Ea; exact Hm.
        + intros ps Hpn. apply (Hp (a :: ps)).
          rewrite node_get_cons; simpl children; rewrite Ea; exact Hpn.
      - assert (Ha : D [a] mod 2 ^ 64 = 0).
        { apply Hp. rewrite node_get_cons; simpl children; rewrite Ea; reflexivity. }
        split; [split; exact I|split].
        + intros [|p ps] m Hm; [|discriminate].
          inversion Hm; subst m. simpl. symmetry; exact Ha.
        + intros ps Hpn. apply (Hp (a :: ps)).
          rewrite node_get_cons; simpl children; rewrite Ea; reflexivity. }
    assert (Hold : match map_get a ch with Some c => weight c | None => 0 end
                   = weight child) by (destruct (map_get a ch); subst; reflexivity).
    assert (Hwc := node_add_weight_top _ _ _ _ Hc).
    specialize (IH child _ d child' Hchild Hc).
    apply tree_wf_mk in Hwf as [Hsorted Hall].
    split; [|split].
    + apply tree_wf_mk. split; [apply keys_sorted_insert, Hsorted|].
      apply forall_wf_insert; [exact Hall | exact (proj1 IH)].
    + intros [|b ps] m Hm.
      * cbn in Hm; inversion Hm; subst m; clear Hm.
        specialize (Hw [] (mkNode w o ch) eq_refl).
        change (weight (mkNode w o ch)) with w in Hw.
        change (sum_children (mkNode w o ch)) with (sum_list ch) in Hw.
        change ((u64_as_i64 w + d) mod 2 ^ 64
                = (sum_list (map_insert a child' ch)
                   + (D [] + if list_eq_dec string_dec [] (a :: rest) then d else 0))
                  mod 2 ^ 64).
        rewrite sum_list_insert by exact Hsorted. rewrite Hold, Hwc.
        destruct (list_eq_dec string_dec [] (a :: rest)) as [E|_]; [discriminate|].
        rewrite Z.add_0_r, u64_as_i64_mod, Hw.
        symmetry. apply mod_shift.
      * rewrite node_get_cons in Hm. simpl children in Hm.
        destruct (string_dec b a) as [->|Hba].
        -- rewrite map_get_insert_same in Hm.
           rewrite (proj1 (proj2 IH) _ _ Hm), list_eq_dec_cons. reflexivity.
        -- rewrite map_get_insert_other in Hm by exact Hba.
           assert (node_get (mkNode w o ch) (b :: ps) = Ret m) as Hm'
             by (rewrite node_get_cons; exact Hm).
           rewrite (Hw _ _ Hm').
           destruct (list_eq_dec string_dec (b :: ps) (a :: rest)) as [E|_];
             [inversion E; congruence|].
           rewrite Z.add_0_r; reflexivity.
    + intros [|b ps] Hpn; [cbn in Hpn; discriminate|].
      rewrite node_get_cons in Hpn. simpl children in Hpn.
      destruct (string_dec b a) as [->|Hba].
      * rewrite map_get_insert_same in Hpn.
        rewrite list_eq_dec_cons. exact (proj2 (proj2 IH) _ Hpn).
      * rewrite map_get_insert_other in Hpn by exact Hba.
        assert (node_get (mkNode w o ch) (b :: ps) = Panic) as Hpn'
          by (rewrite node_get_cons; exact Hpn).
        destruct (list_eq_dec string_dec (b :: ps) (a :: rest)) as [E|_];
          [inversion E; congruence|].
        rewrite Z.add_0_r; auto.
Qed.

Lemma weight_inv_calls (calls : list (string * Z)) :
  forall c D c',
  weight_inv (root c) D -> apply_calls c calls = Ret c' ->
  weight_inv (root c') (fun ps => D ps + direct_delta calls ps).
Proof.
  induction calls as [|[p d] calls IH]; intros c D c' Hinv H; simpl in H.
  - inversion H; subst. eapply weight_inv_ext; [|exact Hinv]. intros; simpl; ring.
  - unfold add_weight in H.
    destruct (node_add_weight (root c) (path_names p) d) as [r| |] eqn:E;
      simpl in H; try discriminate.
    assert (H1 := weight_inv_step _ _ _ _ _ Hinv E).
    specialize (IH (mkCrush r) _ c' H1 H).
    eapply weight_inv_ext; [|exact IH]. intros ps; simpl; ring.
Qed.

(** ** Each node along the path *)

Lemma old_weight_cons (n : Node) (a : string) (ps : list string) :
  old_weight n (a :: ps)
  = old_weight (match map_get a (children n) with Some c => c | None => node_default end) ps.
Proof.
  unfold old_weight. rewrite node_get_cons.
  destruct (map_get a (children n)); [reflexivity|].
  destruct ps; reflexivity.
Qed.

Lemma node_add_weight_along (names : list string) :
  forall n d n', node_add_weight n names d = Ret n' ->
  forall k, (k <= List.length names)%nat ->
  exists m', node_get n' (firstn k names) = Ret m' /\
             weight m' = (old_weight n (firstn k names) + d) mod 2 ^ 64.
Proof.
  induction names as [|a rest IH]; intros n d n' H k Hk.
  - exists n'. assert (k = 0%nat) by (simpl in Hk; lia); subst k. simpl.
    split; [reflexivity|]. apply (node_add_weight_top _ _ _ _ H).
  - destruct k as [|k].
    + exists n'. simpl. split; [reflexivity|]. apply (node_add_weight_top _ _ _ _ H).
    + destruct n as [w o ch]. cbn [node_add_weight] in H.
      destruct (i64_add (u64_as_i64 w) d); cbn [bind] in H; try discriminate.
      destruct (node_add_weight (match map_get a ch with Some c => c
                                 | None => node_default end) rest d)
        as [child'| |] eqn:Hc; cbn [bind] in H; try discriminate.
      inversion H; subst n'; clear H.
      simpl in Hk. destruct (IH _ _ _ Hc k ltac:(lia)) as [m' [Hg Hw]].
      exists m'. simpl firstn. rewrite node_get_cons. simpl children.
      rewrite map_get_insert_same. split; [exact Hg|].
      rewrite old_weight_cons. exact Hw.
Qed.

Lemma node_add_weight_no_overflow (names : list string) :
  forall n d,
  (forall k, (k <= List.length names)%nat ->
     - 2 ^ 63 <= u64_as_i64 (old_weight n (firstn k names)) + d < 2 ^ 63) ->
  exists n', node_add_weight n names d = Ret n'.
Proof.
  induction names as [|a rest IH]; intros [w o ch] d H.
  - specialize (H 0%nat (Nat.le_refl _)). simpl in H.
    cbn [node_add_weight]. unfold i64_add.
    destruct (_ && _) eqn:E; [eexists; reflexivity|].
    exfalso. apply andb_false_iff in E as [E|E];
      [apply Z.leb_gt in E | apply Z.ltb_ge in E]; unfold old_weight in H; simpl in H; lia.
  - assert (H0 := H 0%nat ltac:(lia)). simpl in H0. unfold old_weight in H0; simpl in H0.
    destruct (IH (match map_get a ch with Some c => c | None => node_default end) d)
      as [child' Hc].
    { intros k Hk. specialize (H (S k) ltac:(simpl; lia)).
      simpl firstn in H. rewrite old_weight_cons in H. exact H. }
    cbn [node_add_weight]. unfold i64_add.
    destruct (_ && _) eqn:E.
    + cbn [bind]. rewrite Hc. eexists; reflexivity.
    + exfalso. apply andb_false_iff in E as [E|E];
        [apply Z.leb_gt in E | apply Z.ltb_ge in E]; lia.
Qed.

(** ** Descent through a subtree of out-of-service leaves *)

Lemma all_out_mk (w : Z) (o : bool) (ch : list (string * Node)) :
  all_out (mkNode w o ch)
  = forallb (fun p => negb (weight (snd p) =? 0)
                      && match children (snd p) with [] => out (snd p)
                         | _ => all_out (snd p) end) ch.
Proof.
  induction ch as [|[k c] ch IH]; [reflexivity|].
  simpl. simpl in IH. rewrite IH. reflexivity.
Qed.

Lemma all_out_child (n : Node) (name : string) (child : Node) :
  all_out n = true -> map_get name (children n) = Some child ->
  weight child <> 0 /\
  (has_children child = false -> out child = true) /\
  (has_children child = true -> all_out child = true).
Proof.
  destruct n as [w o ch]. rewrite all_out_mk. intros Ha Hg.
  apply map_get_in in Hg. rewrite forallb_forall in Ha.
  specialize (Ha _ Hg). simpl in Ha. apply andb_prop in Ha as [Hw Hc].
  apply negb_true_iff, Z.eqb_neq in Hw. unfold has_children.
  destruct (children child); repeat split; auto; discriminate.
Qed.

Section Descent.

Variable ahash : string -> Z -> Z -> Z.
Variable LN_TABLE : Z -> Z.

Lemma draws_names (key index : Z) (l : list (string * Node)) :
  (forall p, In p l -> weight (snd p) <> 0) ->
  exists ws, draws ahash LN_TABLE key index l = Ret ws /\ map fst ws = map fst l.
Proof.
  induction l as [|[k c] l IH]; intros H; [exists []; split; reflexivity|].
  destruct IH as [ws [Hd Hn]]; [intros p Hp; apply H; right; exact Hp|].
  assert (weight c <> 0) as Hc by exact (H (k, c) (or_introl eq_refl)).
  simpl. unfold draw at 1. rewrite (proj2 (Z.eqb_neq _ _) Hc). simpl.
  rewrite Hd. simpl. eexists; split; [reflexivity|]. simpl. f_equal; exact Hn.
Qed.

Lemma min_by_key_from_in (best : string * Z) (l : list (string * Z)) :
  min_by_key_from best l = best \/ In (min_by_key_from best l) l.
Proof.
  revert best; induction l as [|x l IH]; intros best; simpl; [left; reflexivity|].
  destruct (snd x <? snd best).
  - destruct (IH x) as [->|H]; right; [left|right]; auto.
  - destruct (IH best) as [->|H]; [left|right; right]; auto.
Qed.

Lemma map_get_of_key (name : string) (l : list (string * Node)) :
  In name (map fst l) -> exists c, map_get name l = Some c.
Proof.
  induction l as [|[k c] l IH]; simpl; intros H; [destruct H|].
  destruct (String.eqb_spec name k); [eexists; reflexivity|].
  apply IH. destruct H; [congruence|assumption].
Qed.

Lemma choose_child (n : Node) (key index : Z) :
  has_children n = true ->
  (forall p, In p (children n) -> weight (snd p) <> 0) ->
  exists name c, choose ahash LN_TABLE n key index = Ret name /\
                 map_get name (children n) = Some c.
Proof.
  intros Hh Hw. destruct (draws_names key index _ Hw) as [ws [Hd Hn]].
  unfold choose. rewrite Hd. simpl.
  destruct ws as [|x ws];
    [unfold has_children in Hh; destruct (children n); [discriminate|];
     simpl in Hn; discriminate|].
  simpl. destruct (min_by_key_from x ws) as [name v] eqn:E.
  assert (In name (map fst (x :: ws))) as Hin.
  { destruct (min_by_key_from_in x ws) as [Hx|Hx]; rewrite E in Hx.
    - subst x; left; reflexivity.
    - right. apply (in_map fst) in Hx. exact Hx. }
  rewrite Hn in Hin. destruct (map_get_of_key _ _ Hin) as [c Hc].
  exists name, c; split; [reflexivity|exact Hc].
Qed.

End Descent.

Lemma u32_add_ret (a b s : Z) : u32_add a b = Ret s -> s = a + b.
Proof. unfold u32_add. destruct (_ <? _); intros H; inversion H; reflexivity. Qed.

Lemma u32_add_ok (a b : Z) : a + b < 2 ^ 32 -> u32_add a b = Ret (a + b).
Proof. intros H. unfold u32_add. rewrite (proj2 (Z.ltb_lt _ _) H). reflexivity. Qed.

Section Loop.

Variable ahash : string -> Z -> Z -> Z.
Variable LN_TABLE : Z -> Z.
Variables (rt : Node) (targets : list string) (pgid r : Z).

Definition descent_inv (st : lstate) : Prop :=
  has_children (cur st) = true /\ all_out (cur st) = true.

Hypothesis rt_children : has_children rt = true.
Hypothesis rt_all_out : all_out rt = true.

Lemma loop_body_all_out_continue (st : lstate) (o : lstate + (string * Z)) :
  descent_inv st ->
  loop_body ahash LN_TABLE rt targets pgid r st = Ret o ->
  exists st', o = inl st' /\ descent_inv st' /\
    failure_count st <= failure_count st' <= failure_count st + 1.
Proof.
  intros [Hh Ha] H. unfold loop_body in H.
  destruct (u32_add r (failure_count st)) as [idx| |]; cbn [bind] in H; try discriminate.
  destruct (choose ahash LN_TABLE (cur st) pgid idx) as [name| |]; cbn [bind] in H;
    try discriminate.
  unfold map_index in H.
  destruct (map_get name (children (cur st))) as [child|] eqn:Hg; cbn [bind] in H;
    try discriminate.
  destruct (all_out_child _ _ _ Ha Hg) as [_ [Hleaf Hin]].
  unfold has_children in Hleaf, Hin.
  destruct (children child) as [|p l] eqn:Hch; cbn [negb] in H.
  - rewrite (Hleaf eq_refl) in H. cbn [negb andb] in H.
    destruct (u32_add (failure_count st) 1) as [fc| |] eqn:Hfc; cbn [bind] in H;
      try discriminate.
    apply u32_add_ret in Hfc; subst fc.
    destruct (3 <? local_failure st + 1); inversion H; subst o;
      eexists; (split; [reflexivity|]); unfold descent_inv; cbn [cur failure_count];
      (split; [split; assumption|lia]).
  - inversion H; subst o. eexists; split; [reflexivity|].
    unfold descent_inv; cbn [cur failure_count].
    split; [|lia]. unfold has_children. rewrite Hch. split; [reflexivity|].
    apply Hin; reflexivity.
Qed.

Lemma loop_body_all_out_runs (st : lstate) :
  descent_inv st -> 0 <= r -> 0 <= failure_count st ->
  r + failure_count st + 1 < 2 ^ 32 ->
  exists o, loop_body ahash LN_TABLE rt targets pgid r st = Ret o.
Proof.
  intros [Hh Ha] Hr Hf Hb. unfold loop_body.
  rewrite u32_add_ok by lia. cbn [bind].
  assert (Hw : forall p, In p (children (cur st)) -> weight (snd p) <> 0).
  { intros [k c] Hp. destruct (cur st) as [w o ch]. rewrite all_out_mk in Ha.
    rewrite forallb_forall in Ha. specialize (Ha _ Hp). simpl in Ha.
    apply andb_prop in Ha as [Ha _]. apply negb_true_iff, Z.eqb_neq in Ha. exact Ha. }
  destruct (choose_child ahash LN_TABLE (cur st) pgid (r + failure_count st) Hh Hw)
    as [name [child [Hc Hg]]].
  rewrite Hc. cbn [bind]. unfold map_index. rewrite Hg. cbn [bind].
  destruct (all_out_child _ _ _ Ha Hg) as [_ [Hleaf _]].
  unfold has_children in Hleaf.
  destruct (children child) as [|p l]; cbn [negb]; [|eexists; reflexivity].
  rewrite (Hleaf eq_refl). cbn [negb andb].
  rewrite u32_add_ok by lia. cbn [bind].
  destruct (3 <? _); eexists; reflexivity.
Qed.

Lemma run_loop_all_out_never (fuel : nat) (st : lstate) (x : string * Z) :
  descent_inv st -> run_loop ahash LN_TABLE fuel rt targets pgid r st <> Ret x.
Proof.
  revert st; induction fuel as [|fuel IH]; intros st Hi; simpl; [discriminate|].
  destruct (loop_body ahash LN_TABLE rt targets pgid r st) as [o| |] eqn:E;
    try discriminate.
  destruct (loop_body_all_out_continue _ _ Hi E) as [st' [-> [Hi' _]]].
  apply IH, Hi'.
Qed.

Lemma run_loop_all_out_budget (fuel : nat) (st : lstate) :
  descent_inv st -> 0 <= r -> 0 <= failure_count st ->
  Z.of_nat fuel + r + failure_count st < 2 ^ 32 ->
  run_loop ahash LN_TABLE fuel rt targets pgid r st = OutOfFuel.
Proof.
  revert st; induction fuel as [|fuel IH]; intros st Hi Hr Hf Hb; simpl; [reflexivity|].
  destruct (loop_body_all_out_runs st Hi Hr Hf ltac:(lia)) as [o E]. rewrite E.
  destruct (loop_body_all_out_continue _ _ Hi E) as [st' [-> [Hi' Hfc]]].
  apply IH; [exact Hi' | exact Hr | lia | lia].
Qed.

End Loop.

Lemma select_all_out (ahash : string -> Z -> Z -> Z) (LN_TABLE : Z -> Z)
  (fuel : nat) (c : Crush) (pgid num : Z) :
  has_children (root c) = true -> all_out (root c) = true -> 1 <= num ->
  (forall l, select ahash LN_TABLE fuel c pgid num <> Ret l) /\
  (Z.of_nat fuel < 2 ^ 32 -> select ahash LN_TABLE fuel c pgid num = OutOfFuel).
Proof.
  intros Hh Ha Hn. unfold select.
  destruct (replica_indices_pos num Hn) as [rs ->]. simpl select_reps.
  assert (Hi : descent_inv (mkL (root c) "" 0 0)) by (split; assumption).
  split.
  - intros l.
    destruct (run_loop ahash LN_TABLE fuel (root c) [] pgid 0 (mkL (root c) "" 0 0))
      as [x| |] eqn:E; cbn [bind]; try discriminate.
    exfalso. exact (run_loop_all_out_never ahash LN_TABLE (root c) [] pgid 0 Hh Ha
                      fuel _ x Hi E).
  - intros Hf.
    rewrite (run_loop_all_out_budget ahash LN_TABLE (root c) [] pgid 0 Hh Ha fuel _ Hi);
      simpl; [reflexivity | lia | lia | lia].
Qed.


Lemma height_cons (w : Z) (o : bool) (k : string) (c : Node) (ch : list (string * Node)) :
  height (mkNode w o ((k, c) :: ch)) = Nat.max (S (height c)) (height (mkNode w o ch)).
Proof. reflexivity. Qed.

Lemma height_child (n : Node) (name : string) (c : Node) :
  map_get name (children n) = Some c -> (height c < height n)%nat.
Proof.
  destruct n as [w o ch]. simpl children.
  induction ch as [|[k c'] ch IH]; intros H; [discriminate|].
  rewrite height_cons. simpl in H.
  destruct (String.eqb name k).
  - inversion H; subst c'. lia.
  - specialize (IH H). lia.
Qed.

Lemma u32_add_bound (a b s : Z) : u32_add a b = Ret s -> s = a + b /\ s < 2 ^ 32.
Proof.
  unfold u32_add. destruct (Z.ltb_spec (a + b) (2 ^ 32)) as [Hlt|Hge]; intros E;
    inversion E; lia.
Qed.

Lemma draws_never_oof (ahash : string -> Z -> Z -> Z) (LN_TABLE : Z -> Z)
  (key index : Z) (l : list (string * Node)) :
  draws ahash LN_TABLE key index l <> OutOfFuel.
Proof.
  induction l as [|[k c] l IH]; simpl; [discriminate|].
  unfold draw at 1. destruct (weight c =? 0); cbn [bind]; [discriminate|].
  destruct (draws ahash LN_TABLE key index l); cbn [bind]; congruence.
Qed.

Lemma loop_body_not_oof (ahash : string -> Z -> Z -> Z) (LN_TABLE : Z -> Z)
  (rt : Node) (targets : list string) (pgid r : Z) (st : lstate) :
  loop_body ahash LN_TABLE rt targets pgid r st <> OutOfFuel.
Proof.
  unfold loop_body, u32_add, choose, map_index.
  destruct (_ <? 2 ^ 32); cbn [bind]; [|discriminate].
  destruct (draws ahash LN_TABLE pgid _ (children (cur st))) as [ws| |] eqn:D;
    cbn [bind]; [| discriminate |].
  - destruct (min_by_key ws) as [[name v]|]; cbn [bind]; [|discriminate].
    destruct (map_get name (children (cur st))) as [child|]; cbn [bind]; [|discriminate].
    destruct (negb _); [discriminate|].
    destruct (_ && _); [discriminate|].
    destruct (_ <? 2 ^ 32); cbn [bind]; [|discriminate].
    destruct (3 <? _); discriminate.
  - exfalso. exact (draws_never_oof ahash LN_TABLE _ _ _ D).
Qed.

Section LoopOverflow.

Variable ahash : string -> Z -> Z -> Z.
Variable LN_TABLE : Z -> Z.
Variables (rt : Node) (targets : list string) (pgid r : Z).

Hypothesis rt_children : has_children rt = true.
Hypothesis rt_all_out : all_out rt = true.

Definition overflow_measure (st : lstate) : Z :=
  (2 ^ 32 - failure_count st) * (Z.of_nat (height rt) + 1) + Z.of_nat (height (cur st)).

Lemma loop_body_all_out_step (st : lstate) (o : lstate + (string * Z)) :
  descent_inv st -> (height (cur st) <= height rt)%nat ->
  loop_body ahash LN_TABLE rt targets pgid r st = Ret o ->
  exists st', o = inl st' /\ descent_inv st' /\ (height (cur st') <= height rt)%nat /\
    ((failure_count st' = failure_count st /\ (height (cur st') < height (cur st))%nat) \/
     (failure_count st' = failure_count st + 1 /\ failure_count st + 1 < 2 ^ 32)).
Proof.
  intros [Hh Ha] Hht H. unfold loop_body in H.
  destruct (u32_add r (failure_count st)) as [idx| |]; cbn [bind] in H; try discriminate.
  destruct (choose ahash LN_TABLE (cur st) pgid idx) as [name| |]; cbn [bind] in H;
    try discriminate.
  unfold map_index in H.
  destruct (map_get name (children (cur st))) as [child|] eqn:Hg; cbn [bind] in H;
    try discriminate.
  assert (Hlt := height_child _ _ _ Hg).
  destruct (all_out_child _ _ _ Ha Hg) as [_ [Hleaf Hin]].
  unfold has_children in Hleaf, Hin.
  destruct (children child) as [|p l] eqn:Hch; cbn [negb] in H.
  - rewrite (Hleaf eq_refl) in H. cbn [negb andb] in H.
    destruct (u32_add (failure_count st) 1) as [fc| |] eqn:Hfc; cbn [bind] in H;
      try discriminate.
    apply u32_add_bound in Hfc as [Hfc Hb]; subst fc.
    destruct (3 <? local_failure st + 1); inversion H; subst o;
      eexists; (split; [reflexivity|]); unfold descent_inv; cbn [cur failure_count];
      (split; [split; assumption|]); (split; [lia|right; lia]).
  - inversion H; subst o. eexists; split; [reflexivity|].
    unfold descent_inv; cbn [cur failure_count].
    split; [unfold has_children; rewrite Hch; split; [reflexivity|apply Hin; reflexivity]|].
    split; [lia|left; split; [reflexivity|lia]].
Qed.

Lemma run_loop_all_out_panics (fuel : nat) :
  forall st, descent_inv st -> (height (cur st) <= height rt)%nat ->
  0 <= failure_count st < 2 ^ 32 ->
  overflow_measure st < Z.of_nat fuel ->
  run_loop ahash LN_TABLE fuel rt targets pgid r st = Panic.
Proof.
  induction fuel as [|fuel IH]; intros st Hi Hh Hf Hm.
  - exfalso. unfold overflow_measure in Hm. nia.
  - simpl. destruct (loop_body ahash LN_TABLE rt targets pgid r st) as [o| |] eqn:E.
    + destruct (loop_body_all_out_step _ _ Hi Hh E) as [st' [-> [Hi' [Hh' Hd]]]].
      apply IH; [exact Hi' | exact Hh' | lia |].
      unfold overflow_measure in *. destruct Hd as [[Hd1 Hd2]|[Hd1 Hd2]]; rewrite Hd1; nia.
    + reflexivity.
    + exfalso. exact (loop_body_not_oof _ _ _ _ _ _ _ E).
Qed.

End LoopOverflow.

Lemma select_all_out_overflow (ahash : string -> Z -> Z -> Z) (LN_TABLE : Z -> Z)
  (fuel : nat) (c : Crush) (pgid num : Z) :
  has_children (root c) = true -> all_out (root c) = true -> 1 <= num ->
  (2 ^ 32 + 1) * (Z.of_nat (height (root c)) + 1) <= Z.of_nat fuel ->
  select ahash LN_TABLE fuel c pgid num = Panic.
Proof.
  intros Hh Ha Hn Hfuel. unfold select.
  destruct (replica_indices_pos num Hn) as [rs ->]. simpl select_reps.
  rewrite (run_loop_all_out_panics ahash LN_TABLE (root c) [] pgid 0 Hh Ha fuel);
    [reflexivity | ..]; unfold overflow_measure; cbn [cur failure_count];
    first [split; assumption | lia].
Qed.

Lemma select_root_panics (ahash : string -> Z -> Z -> Z) (LN_TABLE : Z -> Z)
  (fuel : nat) (c : Crush) (pgid num : Z) :
  (forall key index, choose ahash LN_TABLE (root c) key index = Panic) -> 1 <= num ->
  select ahash LN_TABLE (S fuel) c pgid num = Panic.
Proof.
  intros Hc Hn. unfold select.
  destruct (replica_indices_pos num Hn) as [rs ->].
  simpl select_reps. simpl run_loop. unfold loop_body. simpl.
  rewrite Hc. reflexivity.
Qed.

(** ** Runs on the concrete maps *)

Lemma map_inner_eval : apply_calls crush_default calls_inner = Ret (mkCrush tree_inner).
Proof. vm_compute. reflexivity. Qed.

Lemma map_all_out_eval : map_all_out = Ret (mkCrush tree_all_out).
Proof. vm_compute. reflexivity. Qed.

Lemma map_empty_name_eval : map_empty_name = Ret (mkCrush tree_empty_name).
Proof. vm_compute. reflexivity. Qed.

Lemma map_two_devices_eval : map_two_devices = Ret (mkCrush tree_two_devices).
Proof. vm_compute. reflexivity. Qed.

Lemma table_example_bounds : ln_table_bounds table_example.
Proof. intros i Hi. unfold table_example. destruct (i =? 0); lia. Qed.

Section Concrete.

Variable ahash : string -> Z -> Z -> Z.
Variable LN_TABLE : Z -> Z.
Hypothesis table_bounds : ln_table_bounds LN_TABLE.

Lemma choose_two (n : Node) (k1 k2 : string) (c1 c2 : Node) (key index : Z) :
  children n = [(k1, c1); (k2, c2)] -> weight c1 <> 0 -> weight c2 <> 0 ->
  choose ahash LN_TABLE n key index =
  Ret (if LN_TABLE (Z.land (ahash k2 key index) 65535) / weight c2
          <? LN_TABLE (Z.land (ahash k1 key index) 65535) / weight c1 then k2 else k1).
Proof.
  intros Hc H1 H2. unfold choose. rewrite Hc. cbn [draws]. unfold draw.
  rewrite (proj2 (Z.eqb_neq _ _) H1), (proj2 (Z.eqb_neq _ _) H2). cbn.
  destruct (_ <? _); reflexivity.
Qed.

Lemma choose_one (n : Node) (k : string) (c : Node) (key index : Z) :
  children n = [(k, c)] -> weight c <> 0 -> choose ahash LN_TABLE n key index = Ret k.
Proof.
  intros Hc H. unfold choose. rewrite Hc. cbn [draws]. unfold draw.
  rewrite (proj2 (Z.eqb_neq _ _) H). reflexivity.
Qed.

Lemma land_range (x : Z) : 0 <= Z.land x 65535 < 65536.
Proof.
  change 65535 with (Z.ones 16). rewrite Z.land_ones by lia.
  apply Z.mod_pos_bound. lia.
Qed.

(** A child of weight at least [2^40] always beats a sibling of weight 1:
    its draw is below [2^24], the sibling's at least [2^28]. *)
Lemma heavy_wins (i j wbig : Z) :
  0 <= i < 65536 -> 0 <= j < 65536 -> 2 ^ 40 <= wbig ->
  (LN_TABLE j / 1 <? LN_TABLE i / wbig) = false.
Proof.
  intros Hi Hj Hw. apply Z.ltb_ge.
  destruct (table_bounds i Hi) as [Li1 Li2]. destruct (table_bounds j Hj) as [Lj1 Lj2].
  rewrite Z.div_1_r.
  assert (LN_TABLE i / wbig < 2 ^ 24).
  { apply Z.div_lt_upper_bound; [lia|]. nia. }
  lia.
Qed.

Lemma choose_empty_name_root (key index : Z) :
  choose ahash LN_TABLE tree_empty_name key index = Ret "".
Proof.
  rewrite (choose_two tree_empty_name "" "x" _ _ key index eq_refl) by (cbn; lia).
  rewrite heavy_wins; [reflexivity | apply land_range | apply land_range | cbn; lia].
Qed.

Lemma choose_host_two_devices (key index : Z) :
  choose ahash LN_TABLE host_two_devices key index = Ret "a".
Proof.
  rewrite (choose_two host_two_devices "a" "b" _ _ key index eq_refl) by (cbn; lia).
  rewrite heavy_wins; [reflexivity | apply land_range | apply land_range | cbn; lia].
Qed.

Ltac loop_step := cbn [run_loop]; unfold loop_body; cbn -[choose loop_body].

Lemma select_tree_empty_name (pgid : Z) (fuel : nat) :
  select ahash LN_TABLE (S (S fuel)) (mkCrush tree_empty_name) pgid 1 = Ret ["x"].
Proof.
  unfold select. replace (replica_indices 1) with [0] by reflexivity.
  cbn [select_reps root].
  loop_step. rewrite choose_empty_name_root. cbn -[choose loop_body].
  loop_step.
  rewrite (choose_one (mkNode (2 ^ 40) false [("x", mkNode (2 ^ 40) false [])]) "x" _ _ _
             eq_refl) by (cbn; lia).
  reflexivity.
Qed.

Lemma select_tree_two_devices (pgid : Z) (fuel : nat) :
  select ahash LN_TABLE (S (S (S fuel))) (mkCrush tree_two_devices) pgid 2
  = Ret ["h/a"; "h/a/a"].
Proof.
  unfold select. replace (replica_indices 2) with [0; 1] by reflexivity.
  cbn [select_reps root].
  loop_step. rewrite (choose_one tree_two_devices "h" host_two_devices _ _ eq_refl)
    by (cbn; lia). cbn -[choose loop_body].
  loop_step. rewrite choose_host_two_devices. cbn -[choose loop_body].
  loop_step. rewrite (choose_one tree_two_devices "h" host_two_devices _ _ eq_refl)
    by (cbn; lia). cbn -[choose loop_body].
  loop_step. rewrite choose_host_two_devices. cbn -[choose loop_body].
  loop_step. rewrite choose_host_two_devices. cbn -[choose loop_body].
  reflexivity.
Qed.

End Concrete.

(** ** The loop of [select] and the retry policy *)

(** Every pass through the body of the loop that does not panic is a step
    of [retry_step]. *)
Lemma loop_body_step_policy (ahash : string -> Z -> Z -> Z) (LN_TABLE : Z -> Z)
  (rt : Node) (targets : list string) (pgid r : Z) (st : lstate)
  (o : lstate + (string * Z)) :
  loop_body ahash LN_TABLE rt targets pgid r st = Ret o ->
  retry_step ahash LN_TABLE rt targets pgid r st o.
Proof.
  intros H. unfold loop_body in H.
  destruct (u32_add r (failure_count st)) as [idx| |] eqn:Hidx; cbn [bind] in H;
    try discriminate.
  apply u32_add_ret in Hidx; subst idx.
  destruct (choose ahash LN_TABLE (cur st) pgid (r + failure_count st)) as [name| |]
    eqn:Hc; cbn [bind] in H; try discriminate.
  unfold map_index in H.
  destruct (map_get name (children (cur st))) as [child|] eqn:Hg; cbn [bind] in H;
    try discriminate.
  fold (extend_path (fullname st) name) in H.
  destruct (children child) as [|p l] eqn:Hch; cbn [negb] in H.
  - assert (has_children child = false) as Hl by (unfold has_children; rewrite Hch; reflexivity).
    destruct (negb (out child) && negb (existsb (String.eqb (extend_path (fullname st) name))
                                          targets)) eqn:Acc.
    + inversion H; subst o. apply andb_prop in Acc as [Ho Hn].
      apply negb_true_iff in Ho, Hn.
      eapply rs_accept; eauto.
      intros Hin. rewrite (proj2 (existsb_exists _ _)
                             (ex_intro _ _ (conj Hin (String.eqb_refl _)))) in Hn.
      discriminate.
    + assert (Hrej : out child = true \/ In (extend_path (fullname st) name) targets).
      { apply andb_false_iff in Acc as [Ho|Hn]; apply negb_false_iff in Ho || apply negb_false_iff in Hn.
        - left; assumption.
        - right. apply existsb_exists in Hn as [y [Hy Heq]].
          apply String.eqb_eq in Heq; subst y; exact Hy. }
      destruct (u32_add (failure_count st) 1) as [fc| |] eqn:Hfc; cbn [bind] in H;
        try discriminate.
      apply u32_add_ret in Hfc; subst fc.
      destruct (3 <? local_failure st + 1) eqn:Hlf; inversion H; subst o.
      * apply Z.ltb_lt in Hlf. eapply rs_restart; eauto.
      * apply Z.ltb_ge in Hlf. eapply rs_retry_same; eauto.
  - inversion H; subst o.
    eapply rs_descend; eauto. unfold has_children; rewrite Hch; reflexivity.
Qed.

Lemma run_loop_policy (ahash : string -> Z -> Z -> Z) (LN_TABLE : Z -> Z)
  (rt : Node) (targets : list string) (pgid r : Z) (fuel : nat) :
  forall st x, run_loop ahash LN_TABLE fuel rt targets pgid r st = Ret x ->
  policy_loop ahash LN_TABLE rt pgid targets r st x.
Proof.
  induction fuel as [|fuel IH]; intros st x H; simpl in H; [discriminate|].
  destruct (loop_body ahash LN_TABLE rt targets pgid r st) as [[st'|y]| |] eqn:E;
    try discriminate.
  - apply pl_continue with st'; [apply loop_body_step_policy; exact E | exact (IH _ _ H)].
  - inversion H; subst y. apply pl_accept. apply loop_body_step_policy. exact E.
Qed.

Lemma select_reps_policy (ahash : string -> Z -> Z -> Z) (LN_TABLE : Z -> Z)
  (fuel : nat) (rt : Node) (pgid : Z) (rs : list Z) :
  forall targets fc l,
  select_reps ahash LN_TABLE fuel rt pgid rs targets fc = Ret l ->
  policy_select ahash LN_TABLE rt pgid rs targets fc l.
Proof.
  induction rs as [|r rs IH]; intros targets fc l H; simpl in H.
  - inversion H; subst l. apply ps_done.
  - destruct (run_loop ahash LN_TABLE fuel rt targets pgid r (mkL rt "" fc 0))
      as [[x fc']| |] eqn:E; cbn [bind] in H; try discriminate.
    apply ps_replica with x fc'; [exact (run_loop_policy _ _ _ _ _ _ _ _ _ E)|].
    exact (IH _ _ _ H).
Qed.

(** * The claims *)

(** ** C1: replicas of one [select] call

    C1 (no duplicate replicas).  Two in-service devices [h/a] (weight [2^40])
    and [h/b] (weight 1) and [num = 2]: for every hash and every table with
    the bounds of [LN_TABLE], every draw at host [h] picks [a], and [select]
    returns ["h/a"] and then ["h/a/a"]: the second replica is the device
    [h/a] again, its rejected first draw kept in the path, and the second
    string names no node of the map. *)
Theorem select_places_leaf_twice (ahash : string -> Z -> Z -> Z) (LN_TABLE : Z -> Z)
  (pgid : Z) (fuel : nat) :
  ln_table_bounds LN_TABLE ->
  exists c, map_two_devices = Ret c /\
    get_inout c "h/a" = Ret false /\ get_inout c "h/b" = Ret false /\
    (forall key index,
       bind (node_get (root c) ["h"]) (fun h => choose ahash LN_TABLE h key index) = Ret "a") /\
    select ahash LN_TABLE (S (S (S fuel))) c pgid 2 = Ret ["h/a"; "h/a/a"] /\
    get_weight c "h/a/a" = Panic.
Proof.
  intros HL. exists (mkCrush tree_two_devices).
  split; [exact map_two_devices_eval|].
  split; [reflexivity|]. split; [reflexivity|].
  split; [intros key index; apply (choose_host_two_devices ahash LN_TABLE HL)|].
  split; [apply (select_tree_two_devices ahash LN_TABLE HL)|].
  reflexivity.
Qed.

Lemma select_places_leaf_twice_witness :
  ln_table_bounds table_example /\
  exists c, map_two_devices = Ret c /\
    get_inout c "h/a" = Ret false /\ get_inout c "h/b" = Ret false /\
    (forall key index,
       bind (node_get (root c) ["h"]) (fun h => choose hash_example table_example h key index)
       = Ret "a") /\
    select hash_example table_example 3 c 0 2 = Ret ["h/a"; "h/a/a"] /\
    get_weight c "h/a/a" = Panic.
Proof.
  split.
  - intros i Hi. unfold table_example. destruct (i =? 0); lia.
  - apply (select_places_leaf_twice hash_example table_example 0 0).
    intros i Hi. unfold table_example. destruct (i =? 0); lia.
Defined.

(** X1: the strings [select] returns are pairwise distinct: a replica's
    accumulated path is accepted only when it is not among the earlier ones. *)
Theorem select_result_nodup (ahash : string -> Z -> Z -> Z) (LN_TABLE : Z -> Z)
  (fuel : nat) (c : Crush) (pgid num : Z) (l : list string) :
  select ahash LN_TABLE fuel c pgid num = Ret l -> NoDup l.
Proof.
  intros H. exact (select_reps_nodup ahash LN_TABLE fuel (root c) pgid _ [] 0 l
                     (NoDup_nil _) H).
Qed.

Lemma select_result_nodup_witness : NoDup ["h/a"; "h/a/a"].
Proof.
  apply (select_result_nodup hash_example table_example 3 (mkCrush tree_two_devices) 0 2).
  vm_compute. reflexivity.
Defined.

(** ** C2: out-of-service devices

    C2 (out-of-service exclusion).  [add_weight("/x", 2^40)],
    [add_weight("x", 1)], [set_inout("x", true)]: the in-service device
    [/x] sits under a child named [""], the device [x] is out.  For every
    hash and table with the bounds of [LN_TABLE], every draw at the root picks
    [""], and [select(pgid, 1)] returns ["x"], the path of the out device:
    no separator is written after the empty name. *)
Theorem select_returns_out_leaf_path (ahash : string -> Z -> Z -> Z) (LN_TABLE : Z -> Z)
  (pgid : Z) (fuel : nat) :
  ln_table_bounds LN_TABLE ->
  exists c, map_empty_name = Ret c /\
    get_inout c "x" = Ret true /\ get_inout c "/x" = Ret false /\
    (forall key index, choose ahash LN_TABLE (root c) key index = Ret "") /\
    select ahash LN_TABLE (S (S fuel)) c pgid 1 = Ret ["x"].
Proof.
  intros HL. exists (mkCrush tree_empty_name).
  split; [exact map_empty_name_eval|].
  split; [reflexivity|]. split; [reflexivity|].
  split; [intros key index; apply (choose_empty_name_root ahash LN_TABLE HL)|].
  apply (select_tree_empty_name ahash LN_TABLE HL).
Qed.

Lemma select_returns_out_leaf_path_witness :
  ln_table_bounds table_example /\
  exists c, map_empty_name = Ret c /\
    get_inout c "x" = Ret true /\ get_inout c "/x" = Ret false /\
    (forall key index, choose hash_example table_example (root c) key index = Ret "") /\
    select hash_example table_example 2 c 0 1 = Ret ["x"].
Proof.
  split.
  - intros i Hi. unfold table_example. destruct (i =? 0); lia.
  - apply (select_returns_out_leaf_path hash_example table_example 0 0).
    intros i Hi. unfold table_example. destruct (i =? 0); lia.
Defined.

(** ** C3: the weights of the tree

    C3 (weight invariant), as the code keeps it.  After any sequence of
    [add_weight] calls from the empty map, every node's weight is the sum of
    its children's weights plus the deltas of the calls whose path names
    that very node, modulo [2^64]. *)
Theorem node_weight_children_and_deltas (calls : list (string * Z)) (c : Crush) :
  apply_calls crush_default calls = Ret c ->
  forall ps m, node_get (root c) ps = Ret m ->
  weight m = (sum_children m + direct_delta calls ps) mod 2 ^ 64.
Proof.
  intros H ps m Hm.
  destruct (weight_inv_calls calls crush_default (fun _ => 0) c weight_inv_default H)
    as [_ [Hw _]].
  rewrite (Hw ps m Hm). reflexivity.
Qed.

Lemma node_weight_children_and_deltas_witness :
  weight (mkNode 2 false [("b", mkNode 1 false [])])
  = (sum_children (mkNode 2 false [("b", mkNode 1 false [])])
     + direct_delta calls_inner ["a"]) mod 2 ^ 64.
Proof.
  refine (node_weight_children_and_deltas calls_inner (mkCrush tree_inner) _ ["a"] _ _).
  - vm_compute. reflexivity.
  - vm_compute. reflexivity.
Defined.

(** C3: [add_weight("a", 1); add_weight("a/b", 1)] leaves the inner node [a]
    with weight 2 and a single child of weight 1. *)
Lemma inner_add_weight_breaks_sum :
  exists c m, apply_calls crush_default calls_inner = Ret c /\
    node_get (root c) ["a"] = Ret m /\ weight m = 2 /\ sum_children m = 1.
Proof.
  exists (mkCrush tree_inner), (mkNode 2 false [("b", mkNode 1 false [])]).
  split; [exact map_inner_eval|]. vm_compute. repeat split.
Qed.

(** ** C4: the retry policy

    C4 (retry policy).  A [select(pgid, num)] call that returns follows the
    policy of the specification from start to end: for each replica [r] in
    [0..num], descent starts at the root with an empty path and a local
    counter 0; every draw uses [attempt_index = r + failure_count]; on a
    rejection both counters go up and the same node is drawn again, or,
    once the local counter exceeds 3, the path is emptied and descent
    restarts from the root; [failure_count] starts at 0 and is carried from
    each replica to the next. *)
Theorem select_follows_policy (ahash : string -> Z -> Z -> Z) (LN_TABLE : Z -> Z)
  (fuel : nat) (c : Crush) (pgid num : Z) (l : list string) :
  select ahash LN_TABLE fuel c pgid num = Ret l ->
  policy_select ahash LN_TABLE (root c) pgid (replica_indices num) [] 0 l.
Proof.
  intros H. unfold select in H. exact (select_reps_policy _ _ _ _ _ _ _ _ _ H).
Qed.

Lemma select_follows_policy_witness :
  policy_select hash_example table_example tree_two_devices 0 (replica_indices 2) []
    0 ["h/a"; "h/a/a"].
Proof.
  apply (select_follows_policy hash_example table_example 3 (mkCrush tree_two_devices) 0 2).
  vm_compute. reflexivity.
Defined.

(** ** C5: paths that name no node

    C5 (node not found), as the code behaves.  When the first [k] components
    of a path lead to a node that has no child named by component [k],
    [get_weight], [get_inout] and [set_inout] panic: the [BTreeMap] index or
    the [unwrap] aborts the call.  No default value comes back, but no error
    reaches the caller either: the Rust signatures return [u64], [bool] and
    [()], with no failure case. *)
Theorem missing_component_panics (c : Crush) (path : string) (k : nat) (m : Node)
  (o : bool) :
  (k < List.length (path_names path))%nat ->
  node_get (root c) (firstn k (path_names path)) = Ret m ->
  map_get (List.nth k (path_names path) "") (children m) = None ->
  get_weight c path = Panic /\ get_inout c path = Panic /\ set_inout c path o = Panic.
Proof.
  intros Hk Hg Hm.
  assert (E : node_get (root c) (path_names path) = Panic)
    by exact (node_get_missing _ _ _ _ Hk Hg Hm).
  unfold get_weight, get_inout, set_inout. rewrite E.
  rewrite (node_update_panic _ _ _ E). repeat split.
Qed.

Lemma missing_component_panics_witness :
  get_weight (mkCrush (mkNode 1 false [("a", mkNode 1 false [])])) "a/b" = Panic /\
  get_inout (mkCrush (mkNode 1 false [("a", mkNode 1 false [])])) "a/b" = Panic /\
  set_inout (mkCrush (mkNode 1 false [("a", mkNode 1 false [])])) "a/b" true = Panic.
Proof.
  refine (missing_component_panics (mkCrush (mkNode 1 false [("a", mkNode 1 false [])]))
            "a/b" 1 (mkNode 1 false []) true _ _ _).
  - apply Nat.ltb_lt. vm_compute. reflexivity.
  - vm_compute. reflexivity.
  - vm_compute. reflexivity.
Defined.

(** C5: after [add_weight("a", 1)], the paths ["a/b"] (a valid prefix and
    a missing last component) and ["b"] name no node; the three lookups
    panic instead of returning a node-not-found condition to the caller. *)
Lemma missing_node_is_panic :
  exists c, apply_calls crush_default [("a", 1)] = Ret c /\
    get_weight c "a/b" = Panic /\ get_inout c "a/b" = Panic /\
    set_inout c "a/b" true = Panic /\
    get_weight c "b" = Panic /\ get_inout c "b" = Panic /\ set_inout c "b" false = Panic.
Proof.
  exists (mkCrush (mkNode 1 false [("a", mkNode 1 false [])])).
  repeat split; vm_compute; reflexivity.
Qed.

(** ** C6: children of weight zero

    C6 (zero-weight children), as the code behaves.  Nothing filters a child
    of weight 0: a draw at a node with such a child divides by zero and
    panics, so [select] panics as soon as the root has one. *)
Theorem select_zero_weight_child_panics (ahash : string -> Z -> Z -> Z) (LN_TABLE : Z -> Z)
  (fuel : nat) (c : Crush) (pgid num : Z) (name : string) (child : Node) :
  In (name, child) (children (root c)) -> weight child = 0 -> 1 <= num ->
  (forall key index, choose ahash LN_TABLE (root c) key index = Panic) /\
  select ahash LN_TABLE (S fuel) c pgid num = Panic.
Proof.
  intros Hin Hw Hn.
  assert (Hc : forall key index, choose ahash LN_TABLE (root c) key index = Panic)
    by (intros key index; exact (choose_zero_weight ahash LN_TABLE _ key index _ _ Hin Hw)).
  split; [exact Hc|]. exact (select_root_panics ahash LN_TABLE fuel c pgid num Hc Hn).
Qed.

Lemma select_zero_weight_child_panics_witness :
  (forall key index,
     choose hash_example table_example
       (root (mkCrush (mkNode 1 false [("a", node_default); ("b", mkNode 1 false [])])))
       key index = Panic) /\
  select hash_example table_example 1
    (mkCrush (mkNode 1 false [("a", node_default); ("b", mkNode 1 false [])])) 0 1 = Panic.
Proof.
  apply (select_zero_weight_child_panics hash_example table_example 0
           (mkCrush (mkNode 1 false [("a", node_default); ("b", mkNode 1 false [])]))
           0 1 "a" node_default).
  - simpl. left. reflexivity.
  - reflexivity.
  - lia.
Defined.

(** C6: [add_weight("a", 1); add_weight("a", -1); add_weight("b", 1)]
    leaves a child [a] of weight 0 next to [b]; every [select] on that map
    reaches the division by zero. *)
Lemma zero_weight_child_reached :
  exists c, apply_calls crush_default calls_zero = Ret c /\
    In ("a", node_default) (children (root c)) /\ weight node_default = 0 /\
    forall ahash LN_TABLE pgid fuel, select ahash LN_TABLE (S fuel) c pgid 1 = Panic.
Proof.
  exists (mkCrush (mkNode 1 false [("a", node_default); ("b", mkNode 1 false [])])).
  split; [vm_compute; reflexivity|].
  split; [simpl; left; reflexivity|]. split; [reflexivity|].
  intros ahash LN_TABLE pgid fuel. apply select_root_panics; [|lia].
  intros key index. apply (choose_zero_weight ahash LN_TABLE _ key index "a" node_default);
    [simpl; left; reflexivity | reflexivity].
Qed.

(** ** C7: no bound on the attempts

    C7 (placement exhausted), as the code behaves.  When every child below
    the root has a non-zero weight and every leaf is out ([all_out]), the
    loop of [select] never finds a target and never reports one missing: no
    budget of fewer than [2^32] passes ends with a result or an error, and
    [select] and [locate] never return.  The only way out is the overflow of
    the [u32] counter [failure_count], which panics (with overflow checks)
    within [(2^32 + 1) * (height + 1)] passes.  (A leaf of weight 0 instead
    panics at its first draw, see C6.) *)
Theorem select_all_out_no_cap (ahash : string -> Z -> Z -> Z) (LN_TABLE : Z -> Z)
  (fuel : nat) (c : Crush) (pgid num : Z) :
  has_children (root c) = true -> all_out (root c) = true -> 1 <= num ->
  (forall l, select ahash LN_TABLE fuel c pgid num <> Ret l) /\
  (Z.of_nat fuel < 2 ^ 32 -> select ahash LN_TABLE fuel c pgid num = OutOfFuel) /\
  (forall x, locate ahash LN_TABLE fuel c pgid <> Ret x) /\
  ((2 ^ 32 + 1) * (Z.of_nat (height (root c)) + 1) <= Z.of_nat fuel ->
     select ahash LN_TABLE fuel c pgid num = Panic /\
     locate ahash LN_TABLE fuel c pgid = Panic).
Proof.
  intros Hh Ha Hn.
  destruct (select_all_out ahash LN_TABLE fuel c pgid num Hh Ha Hn) as [H1 H2].
  split; [exact H1|]. split; [exact H2|]. split.
  - intros x. unfold locate.
    destruct (select_all_out ahash LN_TABLE fuel c pgid 1 Hh Ha ltac:(lia)) as [H3 _].
    destruct (select ahash LN_TABLE fuel c pgid 1) as [l| |]; cbn [bind]; try discriminate.
    exfalso. exact (H3 l eq_refl).
  - intros Hf. split; [exact (select_all_out_overflow _ _ _ _ _ _ Hh Ha Hn Hf)|].
    unfold locate.
    rewrite (select_all_out_overflow ahash LN_TABLE fuel c pgid 1 Hh Ha ltac:(lia) Hf).
    reflexivity.
Qed.

Lemma select_all_out_no_cap_witness :
  (forall l, select hash_example table_example 5 (mkCrush tree_all_out) 0 1 <> Ret l) /\
  (Z.of_nat 5 < 2 ^ 32 ->
   select hash_example table_example 5 (mkCrush tree_all_out) 0 1 = OutOfFuel) /\
  (forall x, locate hash_example table_example 5 (mkCrush tree_all_out) 0 <> Ret x) /\
  ((2 ^ 32 + 1) * (Z.of_nat (height (root (mkCrush tree_all_out))) + 1) <= Z.of_nat 5 ->
     select hash_example table_example 5 (mkCrush tree_all_out) 0 1 = Panic /\
     locate hash_example table_example 5 (mkCrush tree_all_out) 0 = Panic).
Proof.
  apply (select_all_out_no_cap hash_example table_example 5 (mkCrush tree_all_out) 0 1);
    [reflexivity | reflexivity | lia].
Defined.

(** C7: one device, set out: [select(pgid, 1)] never returns, whatever the
    hash and the table. *)
Lemma all_out_map_never_placed :
  exists c, map_all_out = Ret c /\
    forall ahash LN_TABLE pgid fuel,
      (forall l, select ahash LN_TABLE fuel c pgid 1 <> Ret l) /\
      (Z.of_nat fuel < 2 ^ 32 -> select ahash LN_TABLE fuel c pgid 1 = OutOfFuel).
Proof.
  exists (mkCrush tree_all_out). split; [exact map_all_out_eval|].
  intros ahash LN_TABLE pgid fuel.
  apply select_all_out; [reflexivity | reflexivity | lia].
Qed.

(** ** C9: arithmetic of [add_weight]

    C9 (wrapping weights), as the code behaves.  When the stored weight,
    read as an [i64], plus the delta stays in the [i64] range at every node
    along the path, [add_weight] sets each of them to
    [(old weight + delta) mod 2^64], which [total_weight] and [get_weight]
    then report; a negative delta larger than the weight wraps. *)
Theorem add_weight_wraps_without_overflow (c : Crush) (path : string) (d : Z) :
  (forall k, (k <= List.length (path_names path))%nat ->
     - 2 ^ 63 <= u64_as_i64 (old_weight (root c) (firstn k (path_names path))) + d < 2 ^ 63) ->
  exists c', add_weight c path d = Ret c' /\
    total_weight c' = (total_weight c + d) mod 2 ^ 64 /\
    get_weight c' path = Ret ((old_weight (root c) (path_names path) + d) mod 2 ^ 64) /\
    (forall k, (k <= List.length (path_names path))%nat ->
       exists m, node_get (root c') (firstn k (path_names path)) = Ret m /\
                 weight m = (old_weight (root c) (firstn k (path_names path)) + d) mod 2 ^ 64).
Proof.
  intros H.
  destruct (node_add_weight_no_overflow (path_names path) (root c) d H) as [n' E].
  exists (mkCrush n'). unfold add_weight. rewrite E.
  split; [reflexivity|].
  split; [exact (node_add_weight_top _ _ _ _ E)|].
  assert (Al := node_add_weight_along (path_names path) (root c) d n' E).
  split.
  - destruct (Al (List.length (path_names path)) (Nat.le_refl _)) as [m [Hg Hw]].
    rewrite firstn_all in Hg, Hw. unfold get_weight. cbn [root]. rewrite Hg.
    cbn [bind]. rewrite Hw. reflexivity.
  - exact Al.
Qed.

Lemma add_weight_wraps_without_overflow_witness :
  exists c', add_weight crush_default "a" (-1) = Ret c' /\
    total_weight c' = 2 ^ 64 - 1 /\ get_weight c' "a" = Ret (2 ^ 64 - 1).
Proof.
  destruct (add_weight_wraps_without_overflow crush_default "a" (-1)) as [c' [H1 [H2 [H3 _]]]].
  - intros k Hk. simpl in Hk. destruct k as [|[|k]]; [cbn; lia | cbn; lia | lia].
  - exists c'. split; [exact H1|]. split.
    + rewrite H2. reflexivity.
    + rewrite H3. reflexivity.
Defined.

(** C9: [add_weight("a", 2^63 - 1); add_weight("a", 1)]: the second call
    overflows the [i64] addition and panics instead of wrapping. *)
Lemma add_weight_i64_overflow_panics :
  apply_calls crush_default [("a", 2 ^ 63 - 1); ("a", 1)] = Panic.
Proof. vm_compute. reflexivity. Qed.

(** ** C10: nodes without children

    C10 (no candidate).  A draw at a node without children panics on the
    [unwrap] of [min_by_key]; so [select] with [num >= 1] and [locate] panic
    on a map whose root has no child, the empty map among them. *)
Theorem childless_root_no_candidate (ahash : string -> Z -> Z -> Z) (LN_TABLE : Z -> Z)
  (fuel : nat) (c : Crush) (pgid num : Z) :
  children (root c) = [] -> 1 <= num ->
  (forall n key index, children n = [] -> choose ahash LN_TABLE n key index = Panic) /\
  select ahash LN_TABLE (S fuel) c pgid num = Panic /\
  locate ahash LN_TABLE (S fuel) c pgid = Panic.
Proof.
  intros Hc Hn.
  split; [intros n key index; exact (choose_no_children ahash LN_TABLE n key index)|].
  split; [exact (select_childless_root ahash LN_TABLE fuel c pgid num Hc Hn)|].
  unfold locate. rewrite (select_childless_root ahash LN_TABLE fuel c pgid 1 Hc ltac:(lia)).
  reflexivity.
Qed.

Lemma childless_root_no_candidate_witness :
  (forall n key index, children n = [] -> choose hash_example table_example n key index = Panic) /\
  select hash_example table_example 1 crush_default 0 1 = Panic /\
  locate hash_example table_example 1 crush_default 0 = Panic.
Proof.
  apply (childless_root_no_candidate hash_example table_example 0 crush_default 0 1);
    [reflexivity | lia].
Defined.

(** * Further properties of the code *)

(** ** What [add_weight] leaves in the tree *)

Lemma node_get_not_oof (n : Node) (ps : list string) : node_get n ps <> OutOfFuel.
Proof.
  revert n; induction ps as [|a ps IH]; intros n; simpl; [discriminate|].
  unfold map_index. destruct (map_get a (children n)); simpl; [apply IH|discriminate].
Qed.

Lemma is_prefix_cons_same (a : string) (l1 l2 : list string) :
  is_prefix (a :: l1) (a :: l2) = is_prefix l1 l2.
Proof. simpl. rewrite String.eqb_refl. reflexivity. Qed.

Lemma is_prefix_cons_other (a b : string) (l1 l2 : list string) :
  b <> a -> is_prefix (b :: l1) (a :: l2) = false.
Proof. intros H. simpl. rewrite (proj2 (String.eqb_neq _ _) H). reflexivity. Qed.

(** Weights after one [Node::add_weight]. *)
Lemma node_add_weight_get (names : list string) :
  forall n d n' ps, node_add_weight n names d = Ret n' ->
  match node_get n' ps with
  | Ret m' => weight m' = (if is_prefix ps names
                           then (old_weight n ps + d) mod 2 ^ 64
                           else old_weight n ps)
  | _ => node_get n ps = Panic /\ is_prefix ps names = false
  end.
Proof.
  induction names as [|a rest IH]; intros [w o ch] d n' ps H;
    cbn [node_add_weight] in H;
    destruct (i64_add (u64_as_i64 w) d) as [s| |] eqn:Hs; cbn [bind] in H;
    try discriminate; apply i64_add_ret in Hs; subst s.
  - inversion H; subst n'; clear H.
    destruct ps as [|b ps].
    + simpl. unfold old_weight; simpl. apply u64_as_i64_mod.
    + simpl is_prefix. unfold old_weight.
      assert (E : node_get (mkNode (i64_as_u64 (u64_as_i64 w + d)) o ch) (b :: ps)
                  = node_get (mkNode w o ch) (b :: ps)) by reflexivity.
      rewrite E. destruct (node_get (mkNode w o ch) (b :: ps)) eqn:G.
      * reflexivity.
      * split; reflexivity.
      * exfalso; exact (node_get_not_oof _ _ G).
  - destruct (node_add_weight (match map_get a ch with Some c => c | None => node_default end)
                rest d) as [child'| |] eqn:Hc; cbn [bind] in H; try discriminate.
    inversion H; subst n'; clear H.
    destruct ps as [|b ps].
    + simpl. unfold old_weight; simpl. apply u64_as_i64_mod.
    + destruct (String.eqb_spec b a) as [->|Hne].
      * rewrite node_get_cons. cbn [children]. rewrite map_get_insert_same.
        rewrite is_prefix_cons_same, old_weight_cons. cbn [children].
        specialize (IH _ _ _ ps Hc).
        destruct (node_get child' ps) eqn:G; [exact IH| |];
          destruct IH as [IH1 IH2]; split; try exact IH2;
          rewrite node_get_cons; cbn [children];
          destruct (map_get a ch); [exact IH1|reflexivity|exact IH1|reflexivity].
      * rewrite node_get_cons. cbn [children]. rewrite map_get_insert_other by exact Hne.
        rewrite (is_prefix_cons_other a b) by exact Hne.
        unfold old_weight. rewrite (node_get_cons (mkNode w o ch)). cbn [children].
        destruct (map_get b ch) as [c|].
        -- destruct (node_get c ps) eqn:G; [reflexivity|split; reflexivity|].
           exfalso; exact (node_get_not_oof _ _ G).
        -- split; reflexivity.
Qed.

Lemma delta_inv_calls (calls : list (string * Z)) :
  forall c D c', delta_inv (root c) D -> apply_calls c calls = Ret c' ->
  delta_inv (root c') (fun ps => D ps + subtree_delta calls ps).
Proof.
  induction calls as [|[p d] calls IH]; intros c D c' [I1 I2] H; simpl in H.
  - inversion H; subst. split.
    + intros ps m Hm. rewrite Z.add_0_r. exact (I1 ps m Hm).
    + intros ps Hp. rewrite Z.add_0_r. exact (I2 ps Hp).
  - unfold add_weight in H.
    destruct (node_add_weight (root c) (path_names p) d) as [r| |] eqn:E;
      simpl in H; try discriminate.
    assert (Step : delta_inv r (fun ps => D ps + (if is_prefix ps (path_names p) then d else 0))).
    { split.
      - intros ps m Hm. assert (G := node_add_weight_get _ _ _ _ ps E). rewrite Hm in G.
        rewrite G. unfold old_weight.
        destruct (node_get (root c) ps) as [m0| |] eqn:G0.
        + rewrite (I1 ps m0 G0).
          destruct (is_prefix ps (path_names p)).
          * rewrite Zplus_mod_idemp_l. reflexivity.
          * rewrite Z.add_0_r. reflexivity.
        + rewrite (I2 ps G0). destruct (is_prefix ps (path_names p)); reflexivity.
        + exfalso; exact (node_get_not_oof _ _ G0).
      - intros ps Hp. assert (G := node_add_weight_get _ _ _ _ ps E). rewrite Hp in G.
        destruct G as [G1 G2]. rewrite G2, (I2 ps G1). reflexivity. }
    specialize (IH (mkCrush r) _ c' Step H).
    destruct IH as [J1 J2]. split.
    + intros ps m Hm. rewrite (J1 ps m Hm). f_equal. simpl. ring.
    + intros ps Hp. rewrite <- (J2 ps Hp). simpl. ring.
Qed.

Lemma subtree_delta_root (calls : list (string * Z)) :
  subtree_delta calls [] = fold_right Z.add 0 (map snd calls).
Proof. induction calls as [|[p d] calls IH]; simpl; [reflexivity|]. rewrite IH. reflexivity. Qed.

(** X2: after any sequence of successful [add_weight] calls from the empty
    map, the total weight is the sum of all deltas, and the weight of every
    node is the sum of the deltas of the calls whose path runs through it
    (that node or a descendant), all modulo [2^64]. *)
Theorem weight_is_subtree_delta (calls : list (string * Z)) (c : Crush) :
  apply_calls crush_default calls = Ret c ->
  total_weight c = fold_right Z.add 0 (map snd calls) mod 2 ^ 64 /\
  (forall q w, get_weight c q = Ret w -> w = subtree_delta calls (path_names q) mod 2 ^ 64).
Proof.
  intros H.
  assert (I0 : delta_inv (root crush_default) (fun _ => 0)).
  { split.
    - intros [|a ps] m Hm; simpl in Hm; [inversion Hm; reflexivity|discriminate].
    - reflexivity. }
  destruct (delta_inv_calls calls _ _ _ I0 H) as [J1 _].
  split.
  - unfold total_weight. rewrite (J1 [] (root c) eq_refl). simpl.
    rewrite subtree_delta_root. reflexivity.
  - intros q w Hq. unfold get_weight in Hq.
    destruct (node_get (root c) (path_names q)) as [m| |] eqn:G; simpl in Hq;
      try discriminate.
    inversion Hq; subst w. rewrite (J1 _ m G). reflexivity.
Qed.

Lemma weight_is_subtree_delta_witness :
  total_weight (mkCrush tree_inner) = fold_right Z.add 0 (map snd calls_inner) mod 2 ^ 64 /\
  (forall q w, get_weight (mkCrush tree_inner) q = Ret w ->
     w = subtree_delta calls_inner (path_names q) mod 2 ^ 64).
Proof. apply weight_is_subtree_delta. vm_compute. reflexivity. Defined.

Lemma node_add_weight_out (names : list string) :
  forall n d n' qs, node_add_weight n names d = Ret n' ->
  bind (node_get n' qs) (fun m => Ret (out m))
  = match node_get n qs with
    | Ret m => Ret (out m)
    | _ => if is_prefix qs names then Ret false else Panic
    end.
Proof.
  induction names as [|a rest IH]; intros [w o ch] d n' qs H;
    cbn [node_add_weight] in H;
    destruct (i64_add (u64_as_i64 w) d) as [s| |]; cbn [bind] in H; try discriminate.
  - inversion H; subst n'; clear H.
    destruct qs as [|b qs]; [reflexivity|].
    change (node_get (mkNode (i64_as_u64 s) o ch) (b :: qs))
      with (node_get (mkNode w o ch) (b :: qs)).
    simpl is_prefix.
    destruct (node_get (mkNode w o ch) (b :: qs)) eqn:G; [reflexivity|reflexivity|].
    exfalso; exact (node_get_not_oof _ _ G).
  - destruct (node_add_weight (match map_get a ch with Some c => c | None => node_default end)
                rest d) as [child'| |] eqn:Hc; cbn [bind] in H; try discriminate.
    inversion H; subst n'; clear H.
    destruct qs as [|b qs]; [reflexivity|].
    destruct (String.eqb_spec b a) as [->|Hne].
    + rewrite !node_get_cons. cbn [children]. rewrite map_get_insert_same.
      rewrite is_prefix_cons_same. rewrite (IH _ _ _ qs Hc).
      destruct (map_get a ch) as [c|]; [reflexivity|].
      destruct qs as [|b' qs]; reflexivity.
    + rewrite !node_get_cons. cbn [children]. rewrite map_get_insert_other by exact Hne.
      rewrite (is_prefix_cons_other a b) by exact Hne.
      destruct (map_get b ch) as [c|]; [|reflexivity].
      destruct (node_get c qs) eqn:G; [reflexivity|reflexivity|].
      exfalso; exact (node_get_not_oof _ _ G).
Qed.

(** X3: [add_weight] keeps the IN/OUT flag of every existing node; a node
    it creates (a prefix of the path that was missing, made by
    [entry().or_default()]) is IN; no other path gains a node. *)
Theorem add_weight_nodes_and_flags (c c' : Crush) (p q : string) (d : Z) :
  add_weight c p d = Ret c' ->
  get_inout c' q
  = match get_inout c q with
    | Ret b => Ret b
    | _ => if is_prefix (path_names q) (path_names p) then Ret false else Panic
    end.
Proof.
  intros H. unfold add_weight in H.
  destruct (node_add_weight (root c) (path_names p) d) as [r| |] eqn:E;
    simpl in H; try discriminate.
  inversion H; subst c'; clear H.
  unfold get_inout. cbn [root]. rewrite (node_add_weight_out _ _ _ _ (path_names q) E).
  destruct (node_get (root c) (path_names q)); reflexivity.
Qed.

Lemma add_weight_nodes_and_flags_witness :
  get_inout (mkCrush (mkNode 1 false [("a", mkNode 1 true [("b", mkNode 1 false [])])])) "a/b"
  = match get_inout (mkCrush (mkNode 0 false [("a", mkNode 0 true [])])) "a/b" with
    | Ret b => Ret b
    | _ => if is_prefix (path_names "a/b") (path_names "a/b") then Ret false else Panic
    end.
Proof.
  apply (add_weight_nodes_and_flags (mkCrush (mkNode 0 false [("a", mkNode 0 true [])])) _
           "a/b" "a/b" 1).
  vm_compute. reflexivity.
Defined.

(** ** [set_inout] *)

Lemma node_update_ret (names : list string) (f : Node -> Node) :
  forall n m, node_get n names = Ret m -> exists n', node_update n names f = Ret n'.
Proof.
  induction names as [|a rest IH]; intros [w o ch] m H; simpl in H |- *;
    [eexists; reflexivity|].
  unfold map_index in H; simpl in H.
  destruct (map_get a ch) as [c|]; simpl in H; [|discriminate].
  destruct (IH c m H) as [c' E]. rewrite E. eexists; reflexivity.
Qed.

Lemma node_update_out (names : list string) (o : bool) :
  forall n n' qs,
  node_update n names (fun m => mkNode (weight m) o (children m)) = Ret n' ->
  (node_get n qs = Panic /\ node_get n' qs = Panic) \/
  (exists m m', node_get n qs = Ret m /\ node_get n' qs = Ret m' /\
     weight m' = weight m /\
     out m' = (if list_eq_dec string_dec qs names then o else out m)).
Proof.
  induction names as [|a rest IH]; intros [w o0 ch] n' qs H; simpl in H.
  - inversion H; subst n'; clear H.
    destruct qs as [|b qs].
    + right. exists (mkNode w o0 ch), (mkNode w o ch). repeat split.
    + change (node_get (mkNode w o ch) (b :: qs)) with (node_get (mkNode w o0 ch) (b :: qs)).
      destruct (node_get (mkNode w o0 ch) (b :: qs)) as [m| |] eqn:G.
      * right. exists m, m. repeat split.
      * left. split; reflexivity.
      * exfalso; exact (node_get_not_oof _ _ G).
  - destruct (map_get a ch) as [c|] eqn:Ha; [|discriminate].
    destruct (node_update c rest _) as [c'| |] eqn:Hc; simpl in H; try discriminate.
    inversion H; subst n'; clear H.
    destruct qs as [|b qs].
    + right. exists (mkNode w o0 ch), (mkNode w o0 (map_insert a c' ch)). repeat split.
    + rewrite !node_get_cons. cbn [children].
      destruct (String.eqb_spec b a) as [->|Hne].
      * rewrite map_get_insert_same, Ha.
        destruct (IH c c' qs Hc) as [L|[m [m' [G1 [G2 [G3 G4]]]]]]; [left; exact L|].
        right. exists m, m'. repeat split; try assumption.
        rewrite G4. destruct (list_eq_dec string_dec qs rest) as [E|E];
          destruct (list_eq_dec string_dec (a :: qs) (a :: rest)) as [E'|E'];
          try reflexivity; [subst; contradiction | inversion E'; contradiction].
      * rewrite map_get_insert_other by exact Hne.
        destruct (map_get b ch) as [cb|]; [|left; split; reflexivity].
        destruct (node_get cb qs) as [m| |] eqn:G.
        -- right. exists m, m. repeat split.
           try (destruct (list_eq_dec string_dec (b :: qs) (a :: rest)) as [E|E];
             [inversion E; contradiction|reflexivity]).
        -- left. split; reflexivity.
        -- exfalso; exact (node_get_not_oof _ _ G).
Qed.

(** X4: on an existing path [set_inout] succeeds, [get_inout] then reads
    the flag written, and no other path's flag nor any weight changes. *)
Theorem set_inout_frame (c : Crush) (p : string) (o b : bool) :
  get_inout c p = Ret b ->
  exists c', set_inout c p o = Ret c' /\
    get_inout c' p = Ret o /\
    (forall q, path_names q <> path_names p -> get_inout c' q = get_inout c q) /\
    (forall q, get_weight c' q = get_weight c q).
Proof.
  intros Hb. unfold get_inout in Hb.
  destruct (node_get (root c) (path_names p)) as [m| |] eqn:G; simpl in Hb;
    try discriminate.
  destruct (node_update_ret (path_names p) (fun m => mkNode (weight m) o (children m))
              (root c) m G) as [r E].
  exists (mkCrush r). unfold set_inout. rewrite E. split; [reflexivity|].
  assert (F := fun qs => node_update_out (path_names p) o (root c) r qs E).
  split; [|split].
  - unfold get_inout. cbn [root].
    destruct (F (path_names p)) as [[L1 L2]|[m1 [m' [G1 [G2 [G3 G4]]]]]];
      [congruence|].
    rewrite G2. simpl. rewrite G4.
    destruct (list_eq_dec string_dec (path_names p) (path_names p)); [reflexivity|congruence].
  - intros q Hq. unfold get_inout. cbn [root].
    destruct (F (path_names q)) as [[L1 L2]|[m1 [m' [G1 [G2 [G3 G4]]]]]].
    + rewrite L1, L2. reflexivity.
    + rewrite G1, G2. simpl. rewrite G4.
      destruct (list_eq_dec string_dec (path_names q) (path_names p)); [contradiction|reflexivity].
  - intros q. unfold get_weight. cbn [root].
    destruct (F (path_names q)) as [[L1 L2]|[m1 [m' [G1 [G2 [G3 G4]]]]]].
    + rewrite L1, L2. reflexivity.
    + rewrite G1, G2. simpl. rewrite G3. reflexivity.
Qed.

Lemma set_inout_frame_witness :
  exists c', set_inout (mkCrush tree_inner) "a/b" true = Ret c' /\
    get_inout c' "a/b" = Ret true /\
    (forall q, path_names q <> path_names "a/b" -> get_inout c' q = get_inout (mkCrush tree_inner) q) /\
    (forall q, get_weight c' q = get_weight (mkCrush tree_inner) q).
Proof. apply (set_inout_frame (mkCrush tree_inner) "a/b" true false). vm_compute. reflexivity. Defined.

(** ** Path strings *)

Lemma split_once_app (a rest : string) :
  split_once a = None -> split_once (a ++ String "/" rest) = Some (a, rest).
Proof.
  induction a as [|c a IH]; intros H; simpl in *; [reflexivity|].
  destruct (Ascii.eqb c "/"%char); [discriminate|].
  destruct (split_once a) as [[x y]|]; [discriminate|]. rewrite IH by reflexivity.
  reflexivity.
Qed.

Lemma string_append_assoc (x y z : string) : (x ++ y) ++ z = x ++ (y ++ z).
Proof. induction x as [|c x IH]; simpl; [reflexivity|]. rewrite IH. reflexivity. Qed.

Lemma path_names_single (a : string) :
  a <> "" -> split_once a = None -> path_names a = [a].
Proof.
  intros Ha Hs. rewrite (path_names_unfold a Ha). unfold split_name. rewrite Hs.
  reflexivity.
Qed.

Lemma path_names_slash (a rest : string) :
  split_once a = None -> path_names (a ++ "/" ++ rest) = a :: path_names rest.
Proof.
  intros Hs. assert (Hne : a ++ "/" ++ rest <> "") by (destruct a; discriminate).
  rewrite (path_names_unfold _ Hne). unfold split_name.
  change ("/" ++ rest) with (String "/" rest). rewrite (split_once_app a rest Hs).
  reflexivity.
Qed.

(** X5: joining components that contain no ['/'] (the last one non-empty)
    with ["/"] gives a path that the [split_once('/')] recursion of
    [Node::get] and [Node::add_weight] splits back into those components,
    with or without one trailing ['/']. *)
Theorem path_names_join (comps : list string) :
  Forall (fun a => split_once a = None) comps ->
  last comps "" <> "" ->
  path_names (join_path comps) = comps /\
  path_names (join_path comps ++ "/") = comps.
Proof.
  induction comps as [|a rest IH]; intros Hs Hl; [simpl in Hl; congruence|].
  inversion Hs as [|? ? Ha Hr]; subst.
  destruct rest as [|b rest].
  - cbn [last] in Hl. cbn [join_path]. split; [exact (path_names_single a Hl Ha)|].
    change (a ++ "/") with (a ++ "/" ++ ""). rewrite (path_names_slash a "" Ha).
    reflexivity.
  - change (join_path (a :: b :: rest)) with (a ++ "/" ++ join_path (b :: rest)).
    change (last (a :: b :: rest) "") with (last (b :: rest) "") in Hl.
    destruct (IH Hr Hl) as [I1 I2].
    split.
    + rewrite (path_names_slash a _ Ha), I1. reflexivity.
    + rewrite !string_append_assoc. rewrite (path_names_slash a _ Ha), I2. reflexivity.
Qed.

Lemma path_names_join_witness :
  path_names (join_path ["row.0"; ""; "osd.0"]) = ["row.0"; ""; "osd.0"] /\
  path_names (join_path ["row.0"; ""; "osd.0"] ++ "/") = ["row.0"; ""; "osd.0"].
Proof.
  apply path_names_join.
  - repeat constructor.
  - discriminate.
Defined.

(** ** Replica lists *)

Section Replicas.

Variable ahash : string -> Z -> Z -> Z.
Variable LN_TABLE : Z -> Z.

Lemma select_reps_length (fuel : nat) (rt : Node) (pgid : Z) (rs : list Z) :
  forall targets fc l,
  select_reps ahash LN_TABLE fuel rt pgid rs targets fc = Ret l ->
  List.length l = (List.length targets + List.length rs)%nat.
Proof.
  induction rs as [|r rs IH]; intros targets fc l H; simpl in H.
  - inversion H; subst; simpl; lia.
  - destruct (run_loop ahash LN_TABLE fuel rt targets pgid r _) as [x| |]; simpl in H;
      try discriminate.
    rewrite (IH _ _ _ H), length_app. simpl. lia.
Qed.

Lemma select_reps_extends (fuel : nat) (rt : Node) (pgid : Z) (rs : list Z) :
  forall targets fc l,
  select_reps ahash LN_TABLE fuel rt pgid rs targets fc = Ret l ->
  exists s, l = (targets ++ s)%list.
Proof.
  induction rs as [|r rs IH]; intros targets fc l H; simpl in H.
  - inversion H; subst. exists []. rewrite app_nil_r. reflexivity.
  - destruct (run_loop ahash LN_TABLE fuel rt targets pgid r _) as [x| |]; simpl in H;
      try discriminate.
    destruct (IH _ _ _ H) as [s ->]. exists (fst x :: s). rewrite <- app_assoc. reflexivity.
Qed.

Lemma select_reps_app (fuel : nat) (rt : Node) (pgid : Z) (rs1 rs2 : list Z) :
  forall targets fc l,
  select_reps ahash LN_TABLE fuel rt pgid (rs1 ++ rs2) targets fc = Ret l ->
  exists l1 s, select_reps ahash LN_TABLE fuel rt pgid rs1 targets fc = Ret l1 /\ l = (l1 ++ s)%list.
Proof.
  induction rs1 as [|r rs1 IH]; intros targets fc l H; simpl in H |- *.
  - exists targets. destruct (select_reps_extends _ _ _ _ _ _ _ H) as [s ->].
    exists s. split; reflexivity.
  - destruct (run_loop ahash LN_TABLE fuel rt targets pgid r _) as [x| |]; simpl in H |- *;
      try discriminate.
    exact (IH _ _ _ H).
Qed.

Lemma replica_indices_app (n m : Z) :
  0 <= n <= m ->
  replica_indices m
  = (replica_indices n ++ map Z.of_nat (seq (Z.to_nat n) (Z.to_nat m - Z.to_nat n)))%list.
Proof.
  intros H. unfold replica_indices. rewrite <- map_app.
  replace (Z.to_nat m) with (Z.to_nat n + (Z.to_nat m - Z.to_nat n))%nat at 1 by lia.
  rewrite seq_app. reflexivity.
Qed.

Lemma select_count (fuel : nat) (c : Crush) (pgid num : Z) (l : list string) :
  select ahash LN_TABLE fuel c pgid num = Ret l -> List.length l = Z.to_nat num.
Proof.
  intros H. unfold select in H. rewrite (select_reps_length _ _ _ _ _ _ _ H).
  unfold replica_indices. rewrite length_map, length_seq. reflexivity.
Qed.

Lemma select_extends (fuel : nat) (c : Crush) (pgid n m : Z) (l : list string) :
  0 <= n <= m ->
  select ahash LN_TABLE fuel c pgid m = Ret l ->
  exists l1 s, select ahash LN_TABLE fuel c pgid n = Ret l1 /\ l = (l1 ++ s)%list.
Proof.
  intros Hnm H. unfold select in H |- *. rewrite (replica_indices_app n m Hnm) in H.
  exact (select_reps_app _ _ _ _ _ _ _ _ H).
Qed.

End Replicas.

(** ** [Crush::select] and [Crush::locate] *)

(** X6: a [select] call that returns gives exactly [num] targets, one per
    iteration of its [for r in 0..num] loop. *)
Theorem select_length (ahash : string -> Z -> Z -> Z) (LN_TABLE : Z -> Z)
  (fuel : nat) (c : Crush) (pgid num : Z) (l : list string) :
  select ahash LN_TABLE fuel c pgid num = Ret l -> List.length l = Z.to_nat num.
Proof. apply select_count. Qed.

Lemma select_length_witness :
  List.length ["h/a"; "h/a/a"] = Z.to_nat 2.
Proof.
  apply (select_length hash_example table_example 3 (mkCrush tree_two_devices) 0 2).
  vm_compute. reflexivity.
Defined.

(** X7: asking for fewer replicas gives a prefix: when [select pgid m]
    returns [l] and [n <= m], [select pgid n] returns the first targets of [l]. *)
Theorem select_prefix (ahash : string -> Z -> Z -> Z) (LN_TABLE : Z -> Z)
  (fuel : nat) (c : Crush) (pgid n m : Z) (l : list string) :
  0 <= n <= m ->
  select ahash LN_TABLE fuel c pgid m = Ret l ->
  exists l1 s, select ahash LN_TABLE fuel c pgid n = Ret l1 /\ l = (l1 ++ s)%list.
Proof. apply select_extends. Qed.

Lemma select_prefix_witness :
  exists l1 s, select hash_example table_example 3 (mkCrush tree_two_devices) 0 1 = Ret l1 /\
    ["h/a"; "h/a/a"] = (l1 ++ s)%list.
Proof.
  apply (select_prefix hash_example table_example 3 (mkCrush tree_two_devices) 0 1 2).
  - lia.
  - vm_compute. reflexivity.
Defined.

(** X8: [locate pgid] is the first target of every [select pgid num] with
    [num >= 1] that returns. *)
Theorem locate_first_replica (ahash : string -> Z -> Z -> Z) (LN_TABLE : Z -> Z)
  (fuel : nat) (c : Crush) (pgid num : Z) (l : list string) :
  1 <= num ->
  select ahash LN_TABLE fuel c pgid num = Ret l ->
  exists x rest, l = x :: rest /\ locate ahash LN_TABLE fuel c pgid = Ret x.
Proof.
  intros Hn H.
  destruct (select_extends ahash LN_TABLE fuel c pgid 1 num l ltac:(lia) H) as [l1 [s [H1 ->]]].
  assert (Hl := select_count _ _ _ _ _ _ _ H1).
  destruct l1 as [|x [|y l1]]; simpl in Hl; try discriminate.
  exists x, s. split; [reflexivity|]. unfold locate. rewrite H1. reflexivity.
Qed.

Lemma locate_first_replica_witness :
  exists x rest, ["h/a"; "h/a/a"] = x :: rest /\
    locate hash_example table_example 3 (mkCrush tree_two_devices) 0 = Ret x.
Proof.
  apply (locate_first_replica hash_example table_example 3 (mkCrush tree_two_devices) 0 2).
  - lia.
  - vm_compute. reflexivity.
Defined.

(** ** [Node::choose] *)

Section ChooseSpec.

Variable ahash : string -> Z -> Z -> Z.
Variable LN_TABLE : Z -> Z.

Lemma draws_panic_iff (key index : Z) (l : list (string * Node)) :
  draws ahash LN_TABLE key index l = Panic <-> exists name c, In (name, c) l /\ weight c = 0.
Proof.
  induction l as [|[k c] l IH]; simpl.
  - split; [discriminate|]. intros [? [? [[] _]]].
  - unfold draw at 1. destruct (Z.eqb_spec (weight c) 0) as [E|E].
    + split; [intros _; exists k, c; split; [left; reflexivity|exact E]|reflexivity].
    + cbn [bind]. destruct (draws ahash LN_TABLE key index l) as [ws'| |] eqn:D; cbn [bind].
      * split; [discriminate|]. intros [name [c' [[Heq|Hin] Hw]]].
        -- inversion Heq; subst; contradiction.
        -- assert (Ret ws' = Panic) by (apply IH; eauto). discriminate.
      * split; [intros _|reflexivity]. destruct (proj1 IH eq_refl) as [name [c' [Hin Hw]]].
        exists name, c'. split; [right; exact Hin|exact Hw].
      * split; [discriminate|]. intros _. exfalso. clear IH. revert D.
        induction l as [|[k' c''] l IH2]; simpl; [discriminate|].
        unfold draw at 1. destruct (weight c'' =? 0); [discriminate|]. cbn [bind].
        destruct (draws ahash LN_TABLE key index l); cbn [bind]; try discriminate.
        exact IH2.
Qed.

Lemma draws_not_oof (key index : Z) (l : list (string * Node)) :
  draws ahash LN_TABLE key index l <> OutOfFuel.
Proof.
  induction l as [|[k c] l IH]; simpl; [discriminate|].
  unfold draw at 1. destruct (weight c =? 0); [discriminate|]. cbn [bind].
  destruct (draws ahash LN_TABLE key index l); cbn [bind]; [discriminate|discriminate|].
  exact IH.
Qed.

Lemma draws_values (key index : Z) (l : list (string * Node)) ws :
  draws ahash LN_TABLE key index l = Ret ws ->
  Forall2 (fun p x => fst x = fst p /\ weight (snd p) <> 0 /\
             snd x = LN_TABLE (Z.land (ahash (fst p) key index) 65535) / weight (snd p)) l ws.
Proof.
  revert ws; induction l as [|[k c] l IH]; intros ws H; simpl in H.
  - inversion H; subst; constructor.
  - unfold draw at 1 in H. destruct (Z.eqb_spec (weight c) 0) as [E|E]; [discriminate|].
    cbn [bind] in H.
    destruct (draws ahash LN_TABLE key index l) as [ws'| |]; cbn [bind] in H; try discriminate.
    inversion H; subst. constructor; [simpl; repeat split; assumption | apply IH; reflexivity].
Qed.

Lemma min_by_key_from_min (best : string * Z) (l : list (string * Z)) :
  (In (min_by_key_from best l) (best :: l)) /\
  (forall x, In x (best :: l) -> snd (min_by_key_from best l) <= snd x).
Proof.
  revert best; induction l as [|y l IH]; intros best; simpl.
  - split; [left; reflexivity|]. intros x [<-|[]]; lia.
  - destruct (Z.ltb_spec (snd y) (snd best)) as [L|L].
    + destruct (IH y) as [I1 I2]. split; [right; exact I1|].
      intros x [<-|[<-|Hx]]; [specialize (I2 y (or_introl eq_refl)); lia | | ];
        apply I2; simpl; auto.
    + destruct (IH best) as [I1 I2]. split.
      * destruct I1 as [E|E]; [left; exact E|right; right; exact E].
      * intros x [<-|[<-|Hx]]; [apply I2; left; reflexivity| |apply I2; right; exact Hx].
        specialize (I2 best (or_introl eq_refl)); lia.
Qed.

Lemma forall2_in_l {A B} (R : A -> B -> Prop) l1 l2 x :
  Forall2 R l1 l2 -> In x l1 -> exists y, In y l2 /\ R x y.
Proof.
  induction 1 as [|a b l1 l2 Hab _ IH]; intros Hx; [destruct Hx|].
  destruct Hx as [<-|Hx]; [eauto with datatypes|].
  destruct (IH Hx) as [y [Hy Ry]]. eauto with datatypes.
Qed.

Lemma forall2_in_r {A B} (R : A -> B -> Prop) l1 l2 y :
  Forall2 R l1 l2 -> In y l2 -> exists x, In x l1 /\ R x y.
Proof.
  induction 1 as [|a b l1 l2 Hab _ IH]; intros Hy; [destruct Hy|].
  destruct Hy as [<-|Hy]; [eauto with datatypes|].
  destruct (IH Hy) as [x [Hx Rx]]. eauto with datatypes.
Qed.

End ChooseSpec.

(** X9: [Node::choose] panics exactly when the node has no children
    ([unwrap] on [None]) or a child of weight zero (division by zero);
    otherwise it returns a child of non-zero weight whose draw
    [LN_TABLE[hash & 65535] / weight] is the least of all children's draws. *)
Theorem choose_spec (ahash : string -> Z -> Z -> Z) (LN_TABLE : Z -> Z)
  (n : Node) (key index : Z) :
  (choose ahash LN_TABLE n key index = Panic <->
     children n = [] \/ exists name c, In (name, c) (children n) /\ weight c = 0) /\
  choose ahash LN_TABLE n key index <> OutOfFuel /\
  (forall name, choose ahash LN_TABLE n key index = Ret name ->
     exists c, In (name, c) (children n) /\ weight c <> 0 /\
       forall name' c', In (name', c') (children n) ->
         LN_TABLE (Z.land (ahash name key index) 65535) / weight c
         <= LN_TABLE (Z.land (ahash name' key index) 65535) / weight c').
Proof.
  unfold choose.
  destruct (draws ahash LN_TABLE key index (children n)) as [ws| |] eqn:D; cbn [bind].
  - assert (F := draws_values ahash LN_TABLE key index _ _ D).
    assert (Hnp : ~ exists name c, In (name, c) (children n) /\ weight c = 0).
    { intros Hz. apply (draws_panic_iff ahash LN_TABLE key index) in Hz. congruence. }
    destruct ws as [|x ws].
    + inversion F as [Hc|]. split; [split; [intros _; left; reflexivity|intros _; reflexivity]|].
      split; [discriminate|]. intros name H; discriminate.
    + cbn [min_by_key]. destruct (min_by_key_from x ws) as [nm v] eqn:M.
      split; [split; [discriminate|]|split; [discriminate|]].
      * intros [Hc|Hz]; [|contradiction]. rewrite Hc in F. inversion F.
      * intros name H. inversion H; subst name. clear H.
        destruct (min_by_key_from_min x ws) as [I1 I2]. rewrite M in I1, I2.
        destruct (forall2_in_r _ _ _ _ F I1) as [[k c] [Hin [E1 [E2 E3]]]].
        simpl in E1, E2, E3. subst k. exists c. split; [exact Hin|]. split; [exact E2|].
        intros name' c' Hin'.
        destruct (forall2_in_l _ _ _ _ F Hin') as [y [Hy [F1 [F2 F3]]]].
        simpl in F1, F2, F3. specialize (I2 y Hy). simpl in I2. rewrite <- E3, <- F3. exact I2.
  - split; [split; [intros _; right; apply (draws_panic_iff ahash LN_TABLE key index); exact D
                   |intros _; reflexivity]|].
    split; [discriminate|]. intros name H; discriminate.
  - exfalso. exact (draws_not_oof ahash LN_TABLE key index _ D).
Qed.

(** ** Composition of updates *)

Lemma string_cmp_eq (a b : string) : String.compare a b = Eq -> a = b.
Proof. intros H. apply String_as_OT.cmp_eq. exact H. Qed.

Lemma string_cmp_gt (a b : string) : String.compare a b = Gt -> String.compare b a = Lt.
Proof. intros H. rewrite String.compare_antisym, H. reflexivity. Qed.

Lemma string_cmp_lt_gt (a b : string) : String.compare a b = Lt -> String.compare b a = Gt.
Proof. intros H. rewrite String.compare_antisym, H. reflexivity. Qed.

Lemma string_cmp_trans (a b c : string) :
  String.compare a b = Lt -> String.compare b c = Lt -> String.compare a c = Lt.
Proof.
  intros H1 H2. apply String_as_OT.cmp_lt.
  apply String_as_OT.cmp_lt in H1, H2. eapply String_as_OT.lt_trans; eauto.
Qed.

Lemma map_insert_insert_same (k : string) (x y : Node) (m : list (string * Node)) :
  map_insert k x (map_insert k y m) = map_insert k x m.
Proof.
  induction m as [|[k' v'] m IH]; simpl.
  - rewrite string_compare_refl. reflexivity.
  - destruct (String.compare k k') eqn:E; simpl.
    + rewrite string_compare_refl. reflexivity.
    + rewrite string_compare_refl. reflexivity.
    + rewrite E, IH. reflexivity.
Qed.

Ltac cmp_simpl :=
  repeat (first [ rewrite string_compare_refl
                | match goal with
                  | H : String.compare ?u ?v = _ |- context [String.compare ?u ?v] => rewrite H
                  end ]; simpl).

Ltac cmp_contra :=
  repeat match goal with
         | H : String.compare ?u ?v = Gt |- _ => apply string_cmp_gt in H
         end;
  first
  [ match goal with
    | H1 : String.compare ?u ?v = Lt, H2 : String.compare ?v ?u = Lt |- _ =>
        let H := fresh in assert (H := string_cmp_trans _ _ _ H1 H2);
        rewrite string_compare_refl in H; discriminate
    end
  | match goal with
    | H1 : String.compare ?u ?v = Lt, H2 : String.compare ?v ?w = Lt,
      H3 : String.compare ?w ?u = Lt |- _ =>
        let H := fresh in assert (H := string_cmp_trans _ _ _ (string_cmp_trans _ _ _ H1 H2) H3);
        rewrite string_compare_refl in H; discriminate
    end ].

Lemma map_insert_comm (a b : string) (x y : Node) (m : list (string * Node)) :
  a <> b -> map_insert a x (map_insert b y m) = map_insert b y (map_insert a x m).
Proof.
  intros Hab.
  assert (Hc : String.compare a b = Lt /\ String.compare b a = Gt \/
               String.compare a b = Gt /\ String.compare b a = Lt).
  { destruct (String.compare a b) eqn:E.
    - apply string_cmp_eq in E. contradiction.
    - left. split; [reflexivity|]. apply string_cmp_lt_gt; exact E.
    - right. split; [reflexivity|]. apply string_cmp_gt; exact E. }
  induction m as [|[k v] m IH]; simpl.
  - destruct Hc as [[-> ->]|[-> ->]]; reflexivity.
  - destruct (String.compare b k) eqn:Eb; destruct (String.compare a k) eqn:Ea;
      try (apply string_cmp_eq in Ea; subst k); try (apply string_cmp_eq in Eb; subst);
      try (exfalso; apply Hab; reflexivity);
      destruct Hc as [[H1 H2]|[H1 H2]];
      first [ exfalso; cmp_contra | simpl; cmp_simpl; rewrite ?IH; reflexivity ].
Qed.

Lemma weight_twice (w d1 d2 : Z) :
  i64_as_u64 (u64_as_i64 (i64_as_u64 (u64_as_i64 w + d1)) + d2) = (w + d1 + d2) mod 2 ^ 64.
Proof.
  unfold i64_as_u64. rewrite u64_as_i64_mod, u64_as_i64_mod, Zplus_mod_idemp_l.
  reflexivity.
Qed.

Lemma weight_once (w d : Z) : i64_as_u64 (u64_as_i64 w + d) = (w + d) mod 2 ^ 64.
Proof. apply u64_as_i64_mod. Qed.

Ltac take_i64 H :=
  cbn [node_add_weight] in H;
  match type of H with
  | context [i64_add ?a ?b] =>
      let E := fresh "E" in let s := fresh "s" in
      destruct (i64_add a b) as [s| |] eqn:E; cbn [bind] in H; try discriminate;
      apply i64_add_ret in E; subst s
  end.

Ltac take_child H :=
  match type of H with
  | context [node_add_weight ?c ?r ?d] =>
      let E := fresh "C" in let c' := fresh "c" in
      destruct (node_add_weight c r d) as [c'| |] eqn:E; cbn [bind] in H; try discriminate
  end.

Lemma node_add_weight_twice (names : list string) :
  forall n d1 d2 n1 n2 n3,
  node_add_weight n names d1 = Ret n1 ->
  node_add_weight n1 names d2 = Ret n2 ->
  node_add_weight n names (d1 + d2) = Ret n3 ->
  n2 = n3.
Proof.
  induction names as [|a rest IH]; intros [w o ch] d1 d2 n1 n2 n3 H1 H2 H3.
  - take_i64 H1. inversion H1; subst n1; clear H1.
    take_i64 H2. inversion H2; subst n2; clear H2.
    take_i64 H3. inversion H3; subst n3; clear H3.
    rewrite weight_twice, weight_once, Z.add_assoc. reflexivity.
  - take_i64 H1. take_child H1. inversion H1; subst n1; clear H1.
    take_i64 H2. rewrite map_get_insert_same in H2. take_child H2.
    inversion H2; subst n2; clear H2.
    take_i64 H3. take_child H3. inversion H3; subst n3; clear H3.
    rewrite weight_twice, weight_once, Z.add_assoc, map_insert_insert_same.
    rewrite (IH _ _ _ _ _ _ C C0 C1). reflexivity.
Qed.

Ltac fin_comm :=
  rewrite ?weight_twice; f_equal; try (f_equal; ring); try congruence.

Lemma node_add_weight_comm (p : list string) :
  forall n q d1 d2 n1 n12 n2 n21,
  node_add_weight n p d1 = Ret n1 -> node_add_weight n1 q d2 = Ret n12 ->
  node_add_weight n q d2 = Ret n2 -> node_add_weight n2 p d1 = Ret n21 ->
  n12 = n21.
Proof.
  induction p as [|a pr IH]; intros [w o ch] q d1 d2 n1 n12 n2 n21 H1 H2 H3 H4.
  - take_i64 H1. inversion H1; subst n1; clear H1.
    destruct q as [|b qr].
    + take_i64 H2. inversion H2; subst n12; clear H2.
      take_i64 H3. inversion H3; subst n2; clear H3.
      take_i64 H4. inversion H4; subst n21; clear H4.
      fin_comm.
    + take_i64 H2. take_child H2. inversion H2; subst n12; clear H2.
      take_i64 H3. take_child H3. inversion H3; subst n2; clear H3.
      take_i64 H4. inversion H4; subst n21; clear H4.
      fin_comm.
  - take_i64 H1. take_child H1. inversion H1; subst n1; clear H1.
    destruct q as [|b qr].
    + take_i64 H2. inversion H2; subst n12; clear H2.
      take_i64 H3. inversion H3; subst n2; clear H3.
      take_i64 H4. take_child H4. inversion H4; subst n21; clear H4.
      fin_comm.
    + take_i64 H2. take_i64 H3. take_child H3. inversion H3; subst n2; clear H3.
      take_i64 H4.
      destruct (String.eqb_spec b a) as [->|Hne].
      * rewrite map_get_insert_same in H2, H4. take_child H2. inversion H2; subst n12; clear H2.
        take_child H4. inversion H4; subst n21; clear H4.
        rewrite !map_insert_insert_same.
        rewrite (IH _ _ _ _ _ _ _ _ C C1 C0 C2). fin_comm.
      * rewrite map_get_insert_other in H2 by exact Hne.
        rewrite map_get_insert_other in H4 by (intros E; apply Hne; symmetry; exact E).
        take_child H2. inversion H2; subst n12; clear H2.
        take_child H4. inversion H4; subst n21; clear H4.
        rewrite map_insert_comm by exact Hne. fin_comm.
Qed.

(** X10: two [add_weight] calls on one path have the effect of one call with
    the sum of the deltas (when all three calls succeed). *)
Lemma add_weight_same_path_merges (c c1 c2 c3 : Crush) (p : string) (d1 d2 : Z) :
  add_weight c p d1 = Ret c1 -> add_weight c1 p d2 = Ret c2 ->
  add_weight c p (d1 + d2) = Ret c3 ->
  c2 = c3.
Proof.
  unfold add_weight. intros H1 H2 H3.
  destruct (node_add_weight (root c) (path_names p) d1) as [r1| |] eqn:E1;
    cbn [bind] in H1; try discriminate. inversion H1; subst c1; clear H1. cbn [root] in H2.
  destruct (node_add_weight r1 (path_names p) d2) as [r2| |] eqn:E2;
    cbn [bind] in H2; try discriminate. inversion H2; subst c2; clear H2.
  destruct (node_add_weight (root c) (path_names p) (d1 + d2)) as [r3| |] eqn:E3;
    cbn [bind] in H3; try discriminate. inversion H3; subst c3; clear H3.
  rewrite (node_add_weight_twice _ _ _ _ _ _ _ E1 E2 E3). reflexivity.
Qed.

Lemma add_weight_same_path_merges_witness :
  add_weight crush_default "a/b" 1
    = Ret (mkCrush (mkNode 1 false [("a", mkNode 1 false [("b", mkNode 1 false [])])])) /\
  add_weight (mkCrush (mkNode 1 false [("a", mkNode 1 false [("b", mkNode 1 false [])])])) "a/b" 2
    = Ret (mkCrush (mkNode 3 false [("a", mkNode 3 false [("b", mkNode 3 false [])])])) /\
  add_weight crush_default "a/b" (1 + 2)
    = Ret (mkCrush (mkNode 3 false [("a", mkNode 3 false [("b", mkNode 3 false [])])])) /\
  mkCrush (mkNode 3 false [("a", mkNode 3 false [("b", mkNode 3 false [])])])
    = mkCrush (mkNode 3 false [("a", mkNode 3 false [("b", mkNode 3 false [])])]).
Proof.
  split; [vm_compute; reflexivity|]. split; [vm_compute; reflexivity|].
  split; [vm_compute; reflexivity|].
  apply (add_weight_same_path_merges crush_default
           (mkCrush (mkNode 1 false [("a", mkNode 1 false [("b", mkNode 1 false [])])]))
           _ _ "a/b" 1 2); vm_compute; reflexivity.
Defined.

(** X11: [add_weight] calls on any two paths commute: both orders give the
    same map (when all four calls succeed). *)
Lemma add_weight_commute (c c1 c12 c2 c21 : Crush) (p q : string) (d1 d2 : Z) :
  add_weight c p d1 = Ret c1 -> add_weight c1 q d2 = Ret c12 ->
  add_weight c q d2 = Ret c2 -> add_weight c2 p d1 = Ret c21 ->
  c12 = c21.
Proof.
  unfold add_weight. intros H1 H2 H3 H4.
  destruct (node_add_weight (root c) (path_names p) d1) as [r1| |] eqn:E1;
    cbn [bind] in H1; try discriminate. inversion H1; subst c1; clear H1. cbn [root] in H2.
  destruct (node_add_weight r1 (path_names q) d2) as [r12| |] eqn:E2;
    cbn [bind] in H2; try discriminate. inversion H2; subst c12; clear H2.
  destruct (node_add_weight (root c) (path_names q) d2) as [r2| |] eqn:E3;
    cbn [bind] in H3; try discriminate. inversion H3; subst c2; clear H3. cbn [root] in H4.
  destruct (node_add_weight r2 (path_names p) d1) as [r21| |] eqn:E4;
    cbn [bind] in H4; try discriminate. inversion H4; subst c21; clear H4.
  rewrite (node_add_weight_comm _ _ _ _ _ _ _ _ _ E1 E2 E3 E4). reflexivity.
Qed.

Lemma add_weight_commute_witness :
  add_weight crush_default "a/b" 1
    = Ret (mkCrush (mkNode 1 false [("a", mkNode 1 false [("b", mkNode 1 false [])])])) /\
  add_weight (mkCrush (mkNode 1 false [("a", mkNode 1 false [("b", mkNode 1 false [])])])) "a/c" 2
    = Ret (mkCrush (mkNode 3 false
             [("a", mkNode 3 false [("b", mkNode 1 false []); ("c", mkNode 2 false [])])])) /\
  add_weight crush_default "a/c" 2
    = Ret (mkCrush (mkNode 2 false [("a", mkNode 2 false [("c", mkNode 2 false [])])])) /\
  add_weight (mkCrush (mkNode 2 false [("a", mkNode 2 false [("c", mkNode 2 false [])])])) "a/b" 1
    = Ret (mkCrush (mkNode 3 false
             [("a", mkNode 3 false [("b", mkNode 1 false []); ("c", mkNode 2 false [])])])) /\
  mkCrush (mkNode 3 false [("a", mkNode 3 false [("b", mkNode 1 false []); ("c", mkNode 2 false [])])])
    = mkCrush (mkNode 3 false [("a", mkNode 3 false [("b", mkNode 1 false []); ("c", mkNode 2 false [])])]).
Proof.
  split; [vm_compute; reflexivity|]. split; [vm_compute; reflexivity|].
  split; [vm_compute; reflexivity|]. split; [vm_compute; reflexivity|].
  apply (add_weight_commute crush_default
           (mkCrush (mkNode 1 false [("a", mkNode 1 false [("b", mkNode 1 false [])])]))
           _ (mkCrush (mkNode 2 false [("a", mkNode 2 false [("c", mkNode 2 false [])])]))
           _ "a/b" "a/c" 1 2); vm_compute; reflexivity.
Defined.

Lemma node_update_compose (names : list string) (f g : Node -> Node) :
  forall n n1, node_update n names f = Ret n1 ->
  node_update n1 names g = node_update n names (fun m => g (f m)).
Proof.
  induction names as [|a rest IH]; intros [w o ch] n1 H; simpl in H |- *.
  - inversion H; subst n1. reflexivity.
  - destruct (map_get a ch) as [c|] eqn:Ec; [|discriminate].
    destruct (node_update c rest f) as [c1| |] eqn:E1; cbn [bind] in H; try discriminate.
    inversion H; subst n1; clear H. simpl.
    rewrite map_get_insert_same, (IH c c1 E1).
    destruct (node_update c rest (fun m => g (f m))) as [c2| |]; cbn [bind]; try reflexivity.
    rewrite map_insert_insert_same. reflexivity.
Qed.

(** X12: a second [set_inout] on the same path overrides the first: the
    result is that of the second call alone. *)
Lemma set_inout_last_wins (c c1 : Crush) (p : string) (o1 o2 : bool) :
  set_inout c p o1 = Ret c1 ->
  set_inout c1 p o2 = set_inout c p o2.
Proof.
  unfold set_inout. intros H.
  destruct (node_update (root c) (path_names p) _) as [r1| |] eqn:E1;
    cbn [bind] in H; try discriminate. inversion H; subst c1; clear H. cbn [root].
  rewrite (node_update_compose _ _ _ _ _ E1). reflexivity.
Qed.

Lemma set_inout_last_wins_witness :
  set_inout (mkCrush tree_inner) "a/b" true
    = Ret (mkCrush (mkNode 2 false [("a", mkNode 2 false [("b", mkNode 1 true [])])])) /\
  set_inout (mkCrush (mkNode 2 false [("a", mkNode 2 false [("b", mkNode 1 true [])])])) "a/b" false
    = set_inout (mkCrush tree_inner) "a/b" false.
Proof.
  split; [vm_compute; reflexivity|].
  apply (set_inout_last_wins (mkCrush tree_inner) _ "a/b" true false).
  vm_compute. reflexivity.
Defined.

Lemma get_weight_panic_iff (c : Crush) (p : string) :
  get_weight c p = Panic <-> get_inout c p = Panic.
Proof.
  unfold get_weight, get_inout.
  destruct (node_get (root c) (path_names p)) as [m| |]; cbn [bind]; split; congruence.
Qed.

(** X13: on a path that names no node, [get_weight], [get_inout] and
    [set_inout] all panic ([BTreeMap] index and [get_mut().unwrap()]);
    unlike [add_weight], [set_inout] creates no node. *)
Lemma missing_path_panics (c : Crush) (p : string) (o : bool) :
  get_weight c p = Panic ->
  get_inout c p = Panic /\ set_inout c p o = Panic.
Proof.
  intros H. split; [apply get_weight_panic_iff; exact H|].
  unfold get_weight, set_inout in *.
  destruct (node_get (root c) (path_names p)) eqn:E; cbn [bind] in H; try discriminate.
  rewrite (node_update_panic _ _ _ E). reflexivity.
Qed.

Lemma missing_path_panics_witness :
  get_weight (mkCrush tree_inner) "a/c" = Panic /\
  get_inout (mkCrush tree_inner) "a/c" = Panic /\ set_inout (mkCrush tree_inner) "a/c" true = Panic.
Proof.
  split; [vm_compute; reflexivity|].
  apply missing_path_panics. vm_compute. reflexivity.
Defined.

(** ** Undoing an [add_weight] *)

Lemma map_insert_present (k : string) (v : Node) (m : list (string * Node)) :
  keys_sorted m -> map_get k m = Some v -> map_insert k v m = m.
Proof.
  induction m as [|[k' v'] m IH]; simpl; intros Hs Hg; [discriminate|].
  destruct Hs as [Hf Hs].
  destruct (String.eqb_spec k k') as [->|Hne].
  - inversion Hg; subst v'. rewrite string_compare_refl. reflexivity.
  - destruct (String.compare k k') eqn:E.
    + apply String.compare_eq_iff in E. contradiction.
    + apply String_as_OT.cmp_lt in E.
      rewrite map_get_above in Hg; [discriminate|].
      eapply Forall_impl; [|exact Hf]. intros p Hp. eapply String_as_OT.lt_trans; eauto.
    + rewrite (IH Hs Hg). reflexivity.
Qed.

Lemma i64_add_zero (w : Z) :
  0 <= w < 2 ^ 64 -> i64_add (u64_as_i64 w) 0 = Ret (u64_as_i64 w).
Proof.
  intros Hw. unfold i64_add. cbv zeta. rewrite Z.add_0_r. unfold u64_as_i64.
  destruct (Z.ltb_spec w (2 ^ 63));
  rewrite (proj2 (Z.leb_le _ _)), (proj2 (Z.ltb_lt _ _)) by lia; reflexivity.
Qed.

Lemma u64_i64_roundtrip (w : Z) : 0 <= w < 2 ^ 64 -> i64_as_u64 (u64_as_i64 w) = w.
Proof.
  intros Hw. unfold i64_as_u64. rewrite <- (Z.add_0_r (u64_as_i64 w)).
  rewrite u64_as_i64_mod, Z.add_0_r. apply Z.mod_small. exact Hw.
Qed.

Lemma node_add_weight_zero (names : list string) :
  forall n m, tree_wf n ->
  (forall ps m', node_get n ps = Ret m' -> 0 <= weight m' < 2 ^ 64) ->
  node_get n names = Ret m ->
  node_add_weight n names 0 = Ret n.
Proof.
  induction names as [|a rest IH]; intros [w o ch] m Hwf Hr Hg.
  - cbn [node_add_weight]. rewrite i64_add_zero by exact (Hr [] _ eq_refl).
    cbn [bind]. rewrite u64_i64_roundtrip by exact (Hr [] _ eq_refl). reflexivity.
  - cbn [node_add_weight]. rewrite i64_add_zero by exact (Hr [] _ eq_refl).
    cbn [bind]. rewrite u64_i64_roundtrip by exact (Hr [] _ eq_refl).
    rewrite node_get_cons in Hg. simpl children in Hg.
    destruct (map_get a ch) as [c|] eqn:Ea; [|discriminate].
    apply tree_wf_mk in Hwf as [Hsorted Hall].
    assert (Hc : tree_wf c).
    { apply map_get_in in Ea. rewrite Forall_forall in Hall. exact (Hall _ Ea). }
    assert (Hrc : forall ps m', node_get c ps = Ret m' -> 0 <= weight m' < 2 ^ 64).
    { intros ps m' H. apply (Hr (a :: ps)). rewrite node_get_cons. simpl children.
      rewrite Ea. exact H. }
    rewrite (IH c m Hc Hrc Hg). cbn [bind].
    rewrite (map_insert_present _ _ _ Hsorted Ea). reflexivity.
Qed.

Lemma apply_calls_shape (calls : list (string * Z)) (c : Crush) :
  apply_calls crush_default calls = Ret c ->
  tree_wf (root c) /\
  (forall ps m, node_get (root c) ps = Ret m -> 0 <= weight m < 2 ^ 64).
Proof.
  intros H. split.
  - exact (proj1 (weight_inv_calls calls crush_default _ _ weight_inv_default H)).
  - assert (I0 : delta_inv (root crush_default) (fun _ => 0)).
    { split.
      - intros [|a ps] m Hm; simpl in Hm; [inversion Hm; reflexivity|discriminate].
      - reflexivity. }
    destruct (delta_inv_calls calls _ _ _ I0 H) as [J1 _].
    intros ps m Hm. rewrite (J1 ps m Hm). apply Z.mod_pos_bound. lia.
Qed.

(** X14: on a map built by [add_weight] calls, adding a delta to an
    existing node and then its negation gives back the map. *)
Theorem add_weight_undo (calls : list (string * Z)) (c c1 c2 : Crush)
  (p : string) (d w : Z) :
  apply_calls crush_default calls = Ret c ->
  get_weight c p = Ret w ->
  add_weight c p d = Ret c1 -> add_weight c1 p (- d) = Ret c2 ->
  c2 = c.
Proof.
  intros Hc Hw H1 H2.
  destruct (apply_calls_shape calls c Hc) as [Hwf Hr].
  unfold get_weight, add_weight in *.
  destruct (node_get (root c) (path_names p)) as [m| |] eqn:G; cbn [bind] in Hw;
    try discriminate.
  assert (Z0 := node_add_weight_zero _ _ _ Hwf Hr G).
  destruct (node_add_weight (root c) (path_names p) d) as [r1| |] eqn:E1;
    cbn [bind] in H1; try discriminate. inversion H1; subst c1; clear H1. cbn [root] in H2.
  destruct (node_add_weight r1 (path_names p) (- d)) as [r2| |] eqn:E2;
    cbn [bind] in H2; try discriminate. inversion H2; subst c2; clear H2.
  rewrite <- (Z.add_opp_diag_r d) in Z0.
  rewrite (node_add_weight_twice _ _ _ _ _ _ _ E1 E2 Z0). destruct c; reflexivity.
Qed.

Lemma add_weight_undo_witness :
  apply_calls crush_default calls_inner = Ret (mkCrush tree_inner) /\
  get_weight (mkCrush tree_inner) "a/b" = Ret 1 /\
  add_weight (mkCrush tree_inner) "a/b" 5
    = Ret (mkCrush (mkNode 7 false [("a", mkNode 7 false [("b", mkNode 6 false [])])])) /\
  add_weight (mkCrush (mkNode 7 false [("a", mkNode 7 false [("b", mkNode 6 false [])])])) "a/b" (- 5)
    = Ret (mkCrush tree_inner) /\
  mkCrush tree_inner = mkCrush tree_inner.
Proof.
  split; [vm_compute; reflexivity|]. split; [vm_compute; reflexivity|].
  split; [vm_compute; reflexivity|]. split; [vm_compute; reflexivity|].
  apply (add_weight_undo calls_inner (mkCrush tree_inner)
           (mkCrush (mkNode 7 false [("a", mkNode 7 false [("b", mkNode 6 false [])])]))
           (mkCrush tree_inner) "a/b" 5 1); vm_compute; reflexivity.
Defined.
